(** * OpenAI status monitor: change detection over two polled endpoints

    A shallow embedding of [monitor.py] (class [OpenAIStatusMonitor]) and of
    the dataclasses of [models.py].  The monitor object is a record of its
    attributes; a method is a function in a small monad that threads the
    monitor, collects the calls made to the outside (HTTP requests, logger
    calls, the two [_log_*_event] printers) and ends either by returning or
    by raising a Python exception. *)

From Stdlib Require Import ZArith SpecFloat Ascii String.
From stdpp Require Import base option list gmap strings.

Open Scope string_scope.
Open Scope list_scope.
Set Warnings "-register-all,-clear-no-such-hyp".

(** ** Decoded JSON values (what [response.json()] hands back) *)

Inductive json : Type :=
| JNull
| JBool (b : bool)
| JInt (n : Z)
| JFloat (x : spec_float)
| JStr (s : string)
| JArr (items : list json)
| JObj (members : list (string * json)).

(** Python truthiness, as tested by [if summary_data:]. *)
Definition truthy (v : json) : bool :=
  match v with
  | JNull => false
  | JBool b => b
  | JInt n => negb (n =? 0)%Z
  | JFloat (S754_zero _) => false
  | JFloat _ => true
  | JStr EmptyString => false
  | JStr _ => true
  | JArr [] => false
  | JArr _ => true
  | JObj [] => false
  | JObj _ => true
  end.

(** ** Exceptions and outcomes *)

(** The exception classes the code can meet; a constructor stands for the
    class and its subclasses.  [OtherError] is any other [Exception]. *)
Inductive exn : Type :=
| KeyError (key : string)
| TypeError
| AttributeError
| ClientError (msg : string)
| JSONDecodeError (msg : string)
| OtherError (msg : string).

(** A computation returns, raises, or leaves the typed model: [IllTyped]
    marks a record built from a value whose run-time type is not the one
    the dataclass declares (Python stores it unchecked; the embedding does
    not follow such a run any further). *)
Inductive outcome (A : Type) : Type :=
| Return (a : A)
| Raise (e : exn)
| IllTyped.
Arguments Return {A} a.
Arguments Raise {A} e.
Arguments IllTyped {A}.

#[global] Instance outcome_ret : MRet outcome := λ A a, Return a.
#[global] Instance outcome_bind : MBind outcome := λ A B f o,
  match o with
  | Return a => f a
  | Raise e => Raise e
  | IllTyped => IllTyped
  end.

(** ** Dictionary and iteration primitives on decoded JSON *)

(** Lookup in the items of a dict (the keys of a decoded object are
    distinct). *)
Fixpoint assoc (key : string) (members : list (string * json)) : option json :=
  match members with
  | [] => None
  | (k, v) :: rest => if decide (k = key) then Some v else assoc key rest
  end.

(** [d.get(key, default)]: only a dict has the method. *)
Definition py_get (d : json) (key : string) (default : json) : outcome json :=
  match d with
  | JObj members => Return (from_option (λ v, v) default (assoc key members))
  | _ => Raise AttributeError
  end.

(** [d[key]] with a string key: a dict answers or raises [KeyError]; no other
    JSON value can be indexed by a string. *)
Definition py_getitem (d : json) (key : string) : outcome json :=
  match d with
  | JObj members =>
      match assoc key members with
      | Some v => Return v
      | None => Raise (KeyError key)
      end
  | _ => Raise TypeError
  end.

Fixpoint chars (s : string) : list json :=
  match s with
  | EmptyString => []
  | String a rest => JStr (String a EmptyString) :: chars rest
  end.

(** [for x in v]: a list yields its items, a dict its keys, a string its
    characters; the other JSON values are not iterable. *)
Definition py_iter (v : json) : outcome (list json) :=
  match v with
  | JArr items => Return items
  | JObj members => Return (JStr <$> members.*1)
  | JStr s => Return (chars s)
  | _ => Raise TypeError
  end.

(** The dataclasses of models.py declare the types of their fields and
    Python does not check them: a constructor stores whatever it is given.
    The records of this development hold values of the declared types, so
    a value is read at its declared type where a list of records is handed
    on, and [IllTyped] is the outcome where it has another type. *)
Definition as_str (v : json) : outcome string :=
  match v with JStr s => Return s | _ => IllTyped end.

Definition as_int (v : json) : outcome Z :=
  match v with JInt n => Return n | _ => IllTyped end.

Definition as_optional_str (v : json) : outcome (option string) :=
  match v with
  | JNull => Return None
  | JStr s => Return (Some s)
  | _ => IllTyped
  end.

(** ** models.py *)

Module ComponentStatus.
Record t : Type := Make {
  id : string;
  name : string;
  status : string;
  updated_at : string;
  position : Z;
}.
End ComponentStatus.

Module IncidentUpdate.
Record t : Type := Make {
  id : string;
  body : string;
  created_at : string;
  display_at : string;
  status : string;
  incident_id : string;
}.
End IncidentUpdate.

Module Incident.
Record t : Type := Make {
  id : string;
  name : string;
  status : string;
  created_at : string;
  updated_at : string;
  resolved_at : option string;
  impact : string;
  updates : list IncidentUpdate.t;
}.
End Incident.

(** ** The parsers *)

(** The parsers raise where the code raises: an exception comes from a
    subscript, a [get] or an iteration, never from a constructor.  So the
    loop of a parser reads the values of every record first ([read_...],
    which raises as the code does, whatever the types of the values), and
    the records built are typed once the loop is through ([build_...]). *)

(** [ComponentStatus(id=..., name=..., ...)]. *)
Definition build_component (id name status updated_at position : json) :
    outcome ComponentStatus.t :=
  id ← as_str id;
  name ← as_str name;
  status ← as_str status;
  updated_at ← as_str updated_at;
  position ← as_int position;
  mret (ComponentStatus.Make id name status updated_at position).

(** One turn of the loop of [_parse_components]. *)
Definition read_component (comp_data : json) : outcome (outcome ComponentStatus.t) :=
  id ← py_getitem comp_data "id";
  name ← py_getitem comp_data "name";
  status ← py_getitem comp_data "status";
  updated_at ← py_getitem comp_data "updated_at";
  position ← py_getitem comp_data "position";
  mret (build_component id name status updated_at position).

(** The typed record of one entry of the feed. *)
Definition parse_component (comp_data : json) : outcome ComponentStatus.t :=
  built ← read_component comp_data; built.

Definition _parse_components (data : json) : outcome (list ComponentStatus.t) :=
  feed ← py_get data "components" (JArr []);
  items ← py_iter feed;
  components ← mapM read_component items;
  mapM (λ built, built) components.

(** [IncidentUpdate(id=..., body=..., ...)]. *)
Definition build_update (id body created_at display_at status incident_id : json) :
    outcome IncidentUpdate.t :=
  id ← as_str id;
  body ← as_str body;
  created_at ← as_str created_at;
  display_at ← as_str display_at;
  status ← as_str status;
  incident_id ← as_str incident_id;
  mret (IncidentUpdate.Make id body created_at display_at status incident_id).

(** One turn of the inner loop of [_parse_incidents]. *)
Definition read_update (update_data : json) : outcome (outcome IncidentUpdate.t) :=
  id ← py_getitem update_data "id";
  body ← py_getitem update_data "body";
  created_at ← py_getitem update_data "created_at";
  display_at ← py_getitem update_data "display_at";
  status ← py_getitem update_data "status";
  incident_id ← py_getitem update_data "incident_id";
  mret (build_update id body created_at display_at status incident_id).

Definition parse_update (update_data : json) : outcome IncidentUpdate.t :=
  built ← read_update update_data; built.

(** [Incident(id=..., ..., updates=updates)]. *)
Definition build_incident
    (id name status created_at updated_at resolved_at impact : json)
    (updates : list (outcome IncidentUpdate.t)) : outcome Incident.t :=
  id ← as_str id;
  name ← as_str name;
  status ← as_str status;
  created_at ← as_str created_at;
  updated_at ← as_str updated_at;
  resolved_at ← as_optional_str resolved_at;
  impact ← as_str impact;
  updates ← mapM (λ built, built) updates;
  mret (Incident.Make id name status created_at updated_at resolved_at impact updates).

(** One turn of the outer loop of [_parse_incidents]: the updates of the
    record are read before its own fields. *)
Definition read_incident (inc_data : json) : outcome (outcome Incident.t) :=
  feed ← py_get inc_data "incident_updates" (JArr []);
  items ← py_iter feed;
  updates ← mapM read_update items;
  id ← py_getitem inc_data "id";
  name ← py_getitem inc_data "name";
  status ← py_getitem inc_data "status";
  created_at ← py_getitem inc_data "created_at";
  updated_at ← py_getitem inc_data "updated_at";
  resolved_at ← py_get inc_data "resolved_at" JNull;
  impact ← py_getitem inc_data "impact";
  mret (build_incident id name status created_at updated_at resolved_at impact updates).

Definition parse_incident (inc_data : json) : outcome Incident.t :=
  built ← read_incident inc_data; built.

Definition _parse_incidents (data : json) : outcome (list Incident.t) :=
  feed ← py_get data "incidents" (JArr []);
  items ← py_iter feed;
  incidents ← mapM read_incident items;
  mapM (λ built, built) incidents.

(** ** The monitor object and its effects *)

(** The attributes set by [__init__] that the methods read or write
    ([session] and [logger] are the outside world, see [effect]). *)
Record Monitor : Type := {
  poll_interval : Z;
  etags : gmap string string;
  last_known_state : gmap string string;
  processed_incident_updates : gset string;
}.

Definition __init__ (poll_interval : Z) : Monitor :=
  {| poll_interval := poll_interval;
     etags := ∅;
     last_known_state := ∅;
     processed_incident_updates := ∅ |}.

Definition with_etags (self : Monitor) (etags' : gmap string string) : Monitor :=
  {| poll_interval := self.(poll_interval);
     etags := etags';
     last_known_state := self.(last_known_state);
     processed_incident_updates := self.(processed_incident_updates) |}.

Definition with_last_known_state (self : Monitor) (state : gmap string string) : Monitor :=
  {| poll_interval := self.(poll_interval);
     etags := self.(etags);
     last_known_state := state;
     processed_incident_updates := self.(processed_incident_updates) |}.

Definition with_processed_incident_updates (self : Monitor) (seen : gset string) : Monitor :=
  {| poll_interval := self.(poll_interval);
     etags := self.(etags);
     last_known_state := self.(last_known_state);
     processed_incident_updates := seen |}.

(** Calls that leave the monitor, in the order they are made.  The two
    event printers are recorded with their arguments; the timestamp they
    print is not part of the model. *)
Inductive effect : Type :=
| HttpGet (url : string) (headers : list (string * string))
| LogHttpStatus (status : Z) (endpoint : string)
| LogNetworkError (endpoint : string) (e : exn)
| LogDecodeError (endpoint : string) (e : exn)
| ComponentEvent (component : ComponentStatus.t) (event_type : string)
| IncidentEvent (incident : Incident.t) (update : IncidentUpdate.t)
| LogStarting (interval : Z)
| PrintBanner
| Sleep (interval : Z)
| LogStopped (e : exn).

Record run (A : Type) : Type := Run {
  final : Monitor;
  trace : list effect;
  result : outcome A;
}.
Arguments Run {A} final trace result.
Arguments final {A} r.
Arguments trace {A} r.
Arguments result {A} r.

Definition M (A : Type) : Type := Monitor → run A.

#[global] Instance M_ret : MRet M := λ A a self, Run self [] (Return a).

(** A run that comes after the calls [before]. *)
Definition after {A} (before : list effect) (r : run A) : run A :=
  Run (final r) (before ++ trace r) (result r).

#[global] Instance M_bind : MBind M := λ A B f m self,
  let r := m self in
  match result r with
  | Return a => after (trace r) (f a (final r))
  | Raise e => Run (final r) (trace r) (Raise e)
  | IllTyped => Run (final r) (trace r) IllTyped
  end.

Definition get_self : M Monitor := λ self, Run self [] (Return self).
Definition set_self (self' : Monitor) : M unit := λ _, Run self' [] (Return tt).
Definition call (e : effect) : M unit := λ self, Run self [e] (Return tt).
Definition lift {A} (o : outcome A) : M A := λ self, Run self [] o.
Definition raise {A} (e : exn) : M A := lift (Raise e).

(** [try: body  except <classes>: handler]; [handler e = None] when no
    clause matches [e], which then propagates. *)
Definition try_except {A} (body : M A) (handler : exn → option (M A)) : M A :=
  λ self,
  let r := body self in
  match result r with
  | Raise e =>
      match handler e with
      | Some h => after (trace r) (h (final r))
      | None => r
      end
  | _ => r
  end.

(** [for x in xs: body] *)
Fixpoint for_each {A} (xs : list A) (body : A → M unit) : M unit :=
  match xs with
  | [] => mret tt
  | x :: rest => body x ;; for_each rest body
  end.

(** ** Fetching *)

Definition BASE_URL : string := "https://status.openai.com".
Definition SUMMARY_ENDPOINT : string := "/api/v2/summary.json".
Definition INCIDENTS_ENDPOINT : string := "/api/v2/incidents.json".

(** What one [session.get] meets: the call itself raises, or a response
    arrives, of which the code reads the status, [headers.get("ETag")] and,
    on a 200, the outcome of [await response.json()]. *)
Inductive body_result : Type :=
| JsonBody (payload : json)
| JsonRaises (e : exn).

Inductive http_result : Type :=
| GetRaises (e : exn)
| Response (status : Z) (etag : option string) (body : body_result).

Definition response_json (body : body_result) : M json :=
  match body with
  | JsonBody payload => mret payload
  | JsonRaises e => raise e
  end.

Definition quote : ascii := ascii_of_nat 34.

Fixpoint lstrip (c : ascii) (s : string) : string :=
  match s with
  | EmptyString => EmptyString
  | String a rest => if decide (a = c) then lstrip c rest else s
  end.

(** [s.strip(c)] for a single character [c]. *)
Definition strip (c : ascii) (s : string) : string :=
  String.rev (lstrip c (String.rev (lstrip c s))).

Definition set_etag (endpoint etag : string) : M unit :=
  self ← get_self;
  set_self (with_etags self (<[endpoint := etag]> self.(etags))).

(** The request headers: [If-None-Match] when a validator is held. *)
Definition conditional_headers (self : Monitor) (endpoint : string) : list (string * string) :=
  match self.(etags) !! endpoint with
  | Some etag => [("If-None-Match", etag)]
  | None => []
  end.

(** The value [None] is [JNull]. *)
Definition _fetch_with_etag (endpoint : string) (net : http_result) : M json :=
  let url := BASE_URL +:+ endpoint in
  self ← get_self;
  let headers := conditional_headers self endpoint in
  try_except
    (call (HttpGet url headers);;
     match net with
     | GetRaises e => raise e
     | Response status etag body =>
         if decide (status = 304%Z) then mret JNull
         else if decide (status = 200%Z) then
           match etag with
           | Some (String a rest as etag) => set_etag endpoint (strip quote etag)
           | _ => mret tt
           end;;
           response_json body
         else
           call (LogHttpStatus status endpoint);;
           mret JNull
     end)
    (λ e,
       match e with
       | ClientError _ => Some (call (LogNetworkError endpoint e);; mret JNull)
       | JSONDecodeError _ => Some (call (LogDecodeError endpoint e);; mret JNull)
       | _ => None
       end).

(** ** Change detection *)

Definition _log_component_event (component : ComponentStatus.t) (event_type : string) : M unit :=
  call (ComponentEvent component event_type).

Definition _log_incident_event (incident : Incident.t) (update : IncidentUpdate.t) : M unit :=
  call (IncidentEvent incident update).

Definition set_last_known_state (state_key current_state : string) : M unit :=
  self ← get_self;
  set_self (with_last_known_state self
              (<[state_key := current_state]> self.(last_known_state))).

Definition add_processed_incident_update (update_id : string) : M unit :=
  self ← get_self;
  set_self (with_processed_incident_updates self
              ({[update_id]} ∪ self.(processed_incident_updates))).

Definition state_key_of (component : ComponentStatus.t) : string :=
  "component_" +:+ component.(ComponentStatus.id).

Definition current_state_of (component : ComponentStatus.t) : string :=
  component.(ComponentStatus.name) +:+ ":" +:+ component.(ComponentStatus.status).

Definition _detect_component_changes (components : list ComponentStatus.t) : M unit :=
  for_each components (λ component,
    let state_key := state_key_of component in
    let current_state := current_state_of component in
    self ← get_self;
    match self.(last_known_state) !! state_key with
    | None =>
        set_last_known_state state_key current_state;;
        _log_component_event component "Initial Status"
    | Some old_state =>
        if decide (old_state ≠ current_state) then
          set_last_known_state state_key current_state;;
          _log_component_event component ("Status changed from " +:+ old_state)
        else mret tt
    end).

(** The inner loop of [_detect_incident_updates], over the updates of one
    incident. *)
Definition detect_updates_of (incident : Incident.t) (updates : list IncidentUpdate.t) : M unit :=
  for_each updates (λ update,
    self ← get_self;
    if decide (update.(IncidentUpdate.id) ∉ self.(processed_incident_updates)) then
      add_processed_incident_update update.(IncidentUpdate.id);;
      _log_incident_event incident update
    else mret tt).

Definition _detect_incident_updates (incidents : list Incident.t) : M unit :=
  for_each incidents (λ incident,
    detect_updates_of incident incident.(Incident.updates)).

(** ** The poll cycle and the loop *)

(** One cycle, in its two stanzas; the arguments are what the network
    answers to the cycle's two requests, if they are made. *)
Definition check_summary (summary_net : http_result) : M unit :=
  summary_data ← _fetch_with_etag SUMMARY_ENDPOINT summary_net;
  if truthy summary_data then
    components ← lift (_parse_components summary_data);
    _detect_component_changes components
  else mret tt.

Definition check_incidents (incidents_net : http_result) : M unit :=
  incidents_data ← _fetch_with_etag INCIDENTS_ENDPOINT incidents_net;
  if truthy incidents_data then
    incidents ← lift (_parse_incidents incidents_data);
    _detect_incident_updates incidents
  else mret tt.

Definition check_status_updates (summary_net incidents_net : http_result) : M unit :=
  check_summary summary_net;;
  check_incidents incidents_net.

(** [while True: check; sleep], run over the answers of the cycles still to
    come: the body of the [try] of [start_monitoring].  It ends only by an
    exception; when the list is used up the loop is still running. *)
Fixpoint monitoring_loop (cycles : list (http_result * http_result)) : M unit :=
  match cycles with
  | [] => mret tt
  | (summary_net, incidents_net) :: later =>
      check_status_updates summary_net incidents_net;;
      self ← get_self;
      call (Sleep self.(poll_interval));;
      monitoring_loop later
  end.

Definition start_monitoring (cycles : list (http_result * http_result)) : M unit :=
  self ← get_self;
  call (LogStarting self.(poll_interval));;
  call PrintBanner;;
  try_except (monitoring_loop cycles)
    (λ e, Some (call (LogStopped e))).

(** ** Vocabulary of the statements *)

(** Storing the signature of a component under its key. *)
Definition remember (self : Monitor) (c : ComponentStatus.t) : Monitor :=
  with_last_known_state self
    (<[state_key_of c := current_state_of c]> self.(last_known_state)).

(** Adding an update id to the seen-set. *)
Definition mark (self : Monitor) (u : IncidentUpdate.t) : Monitor :=
  with_processed_incident_updates self
    ({[u.(IncidentUpdate.id)]} ∪ self.(processed_incident_updates)).

(** The update ids for which a trace holds an incident event, in order. *)
Definition emitted_update_ids (tr : list effect) : list string :=
  omap (λ e, match e with
             | IncidentEvent _ u => Some u.(IncidentUpdate.id)
             | _ => None
             end) tr.

(** From [self] to [self'] under the calls [tr]: the incident events of
    [tr] are for distinct ids, all of them unseen in [self], and they are
    exactly what the seen-set gained. *)
Definition dedup_ok (self : Monitor) (tr : list effect) (self' : Monitor) : Prop :=
  NoDup (emitted_update_ids tr) ∧
  (∀ i, i ∈ emitted_update_ids tr → i ∉ self.(processed_incident_updates)) ∧
  self'.(processed_incident_updates)
  = self.(processed_incident_updates) ∪ list_to_set (emitted_update_ids tr).

Definition dedup_M {A} (m : M A) : Prop :=
  ∀ self, dedup_ok self (trace (m self)) (final (m self)).

(** The two [except] clauses: the exception is logged and [None] returned;
    any other exception leaves the method. *)
Definition handled (self : Monitor) (req : effect) (endpoint : string) (e : exn) : run json :=
  match e with
  | ClientError _ => Run self [req; LogNetworkError endpoint e] (Return JNull)
  | JSONDecodeError _ => Run self [req; LogDecodeError endpoint e] (Return JNull)
  | _ => Run self [req] (Raise e)
  end.

(** The monitor after the [ETag] header of a 200 response was looked at. *)
Definition store_etag (self : Monitor) (endpoint : string) (etag : option string) : Monitor :=
  match etag with
  | Some (String _ _ as etag) =>
      with_etags self (<[endpoint := strip quote etag]> self.(etags))
  | _ => self
  end.

(** The events of a trace: the calls of the two event printers. *)
Definition is_event (e : effect) : bool :=
  match e with
  | ComponentEvent _ _ | IncidentEvent _ _ => true
  | _ => false
  end.

Definition events (tr : list effect) : list effect := List.filter is_event tr.


Definition component_event (p : ComponentStatus.t * string) : effect :=
  ComponentEvent p.1 p.2.

Definition incident_event (p : Incident.t * IncidentUpdate.t) : effect :=
  IncidentEvent p.1 p.2.

(** The (incident, update) pairs of a feed, in the order the nested loops
    visit them. *)
Definition visits (incidents : list Incident.t) : list (Incident.t * IncidentUpdate.t) :=
  incident ← incidents; (λ update, (incident, update)) <$> incident.(Incident.updates).

Definition required_component_fields : list string :=
  ["id"; "name"; "status"; "updated_at"; "position"].

Definition required_update_fields : list string :=
  ["id"; "body"; "created_at"; "display_at"; "status"; "incident_id"].

Definition required_incident_fields : list string :=
  ["id"; "name"; "status"; "created_at"; "updated_at"; "impact"].

(** The first of the [required] keys that a record does not have. *)
Fixpoint first_missing (required : list string) (members : list (string * json)) : option string :=
  match required with
  | [] => None
  | key :: rest =>
      match assoc key members with
      | None => Some key
      | Some _ => first_missing rest members
      end
  end.

(** A record is complete when it is an object that has every required key,
    whatever the values under them. *)
Definition complete (required : list string) (record : json) : Prop :=
  ∃ members, record = JObj members ∧ first_missing required members = None.

(** The entries of the update feed of an incident record. *)
Definition updates_of (inc_data : json) : outcome (list json) :=
  feed ← py_get inc_data "incident_updates" (JArr []);
  py_iter feed.

Definition complete_updates (inc_data : json) : Prop :=
  ∃ items, updates_of inc_data = Return items
           ∧ Forall (complete required_update_fields) items.

Definition complete_incident (record : json) : Prop :=
  complete required_incident_fields record ∧ complete_updates record.

(** An answer is of the declared types for a parser when the records that
    the parser builds from its payload hold values of the types their
    dataclasses declare (the parser may still raise on it).  Only the
    payload of a 200 response that the stanza goes on to parse matters. *)
Definition declared_types {A} (parse : json → outcome (list A)) (net : http_result) : Prop :=
  match net with
  | Response status _ (JsonBody payload) =>
      status = 200%Z → truthy payload = true → parse payload ≠ IllTyped
  | _ => True
  end.

(** What the two [except] clauses turn an exception into, for the caller. *)
Definition swallowed (e : exn) : outcome json :=
  match e with
  | ClientError _ | JSONDecodeError _ => Return JNull
  | _ => Raise e
  end.

(** The request a fetch from [self] sends to [endpoint]. *)
Definition request (self : Monitor) (endpoint : string) : effect :=
  HttpGet (BASE_URL +:+ endpoint) (conditional_headers self endpoint).


(** ** Product labels (the helper of [_log_incident_event]) *)

Definition products : list string :=
  ["Chat Completions"; "Responses"; "Batch"; "Files"; "Fine-tuning";
   "Embeddings"; "Audio"; "Images"; "Realtime"; "ChatGPT"; "Sora";
   "Vector stores"; "Moderation"; "Assistants"; "Codex"; "Login";
   "File uploads"; "Compliance API"].

(** [needle in haystack] on strings. *)
Fixpoint contains (needle haystack : string) : bool :=
  String.prefix needle haystack ||
  match haystack with
  | EmptyString => false
  | String _ rest => contains needle rest
  end.

(** [lower] stands for [str.lower]. *)
Definition _extract_products_from_incident
    (lower : string → string) (incident_name : string) : string :=
  let incident_lower := lower incident_name in
  let found_products :=
    List.filter (λ product, contains (lower product) incident_lower) products in
  match found_products with
  | [] => "OpenAI Services"
  | _ => String.concat ", " found_products
  end.

(** ** main.py *)

(** The parsed command line: [--interval] and [--test]. *)
Record Args : Type := {
  interval : Z;
  test : bool;
}.

(** What [main] does around the monitor's own calls. *)
Inductive main_effect : Type :=
| OpenSession
| PrintTestingMode
| OfMonitor (e : effect)
| CloseSession.

(** [async with OpenAIStatusMonitor(...) as monitor]: the session is opened,
    the body runs on a new monitor, and the session is closed whether the
    body returned or raised.  In test mode the body is one cycle, answered
    by [first]; otherwise the loop, answered by [first] and [later]. *)
Definition main (args : Args) (first : http_result * http_result)
    (later : list (http_result * http_result)) : run unit :=
  let monitor := __init__ args.(interval) in
  if args.(test) then check_status_updates first.1 first.2 monitor
  else start_monitoring (first :: later) monitor.

Definition main_trace (args : Args) (first : http_result * http_result)
    (later : list (http_result * http_result)) : list main_effect :=
  [OpenSession]
  ++ (if args.(test) then [PrintTestingMode] else [])
  ++ (OfMonitor <$> trace (main args first later))
  ++ [CloseSession].

(** ** Feeds as the parsers read them *)

Definition component_json (c : ComponentStatus.t) : json :=
  JObj [("id", JStr c.(ComponentStatus.id));
        ("name", JStr c.(ComponentStatus.name));
        ("status", JStr c.(ComponentStatus.status));
        ("updated_at", JStr c.(ComponentStatus.updated_at));
        ("position", JInt c.(ComponentStatus.position))].

Definition update_json (u : IncidentUpdate.t) : json :=
  JObj [("id", JStr u.(IncidentUpdate.id));
        ("body", JStr u.(IncidentUpdate.body));
        ("created_at", JStr u.(IncidentUpdate.created_at));
        ("display_at", JStr u.(IncidentUpdate.display_at));
        ("status", JStr u.(IncidentUpdate.status));
        ("incident_id", JStr u.(IncidentUpdate.incident_id))].

Definition incident_json (i : Incident.t) : json :=
  JObj [("id", JStr i.(Incident.id));
        ("name", JStr i.(Incident.name));
        ("status", JStr i.(Incident.status));
        ("created_at", JStr i.(Incident.created_at));
        ("updated_at", JStr i.(Incident.updated_at));
        ("resolved_at", from_option JStr JNull i.(Incident.resolved_at));
        ("impact", JStr i.(Incident.impact));
        ("incident_updates", JArr (update_json <$> i.(Incident.updates)))].

(** ** Vocabulary of the further statements *)

(** The requests of a trace, in order. *)
Definition requests (tr : list effect) : list effect :=
  List.filter (λ e, match e with HttpGet _ _ => true | _ => false end) tr.

(** From [self] to [self']: the interval is kept and the three stores have
    lost nothing. *)
Definition grows (self self' : Monitor) : Prop :=
  self'.(poll_interval) = self.(poll_interval) ∧
  dom self.(etags) ⊆ dom self'.(etags) ∧
  dom self.(last_known_state) ⊆ dom self'.(last_known_state) ∧
  self.(processed_incident_updates) ⊆ self'.(processed_incident_updates).

Definition grows_M {A} (m : M A) : Prop := ∀ self, grows self (final (m self)).

(** Every call a method makes satisfies [P]. *)
Definition calls_M {A} (P : effect → Prop) (m : M A) : Prop :=
  ∀ self, Forall P (trace (m self)).

(** The calls the loop body can make: anything but the two lines around
    the loop and the line of its [except]. *)
Definition in_loop (e : effect) : Prop :=
  match e with
  | LogStarting _ | PrintBanner | LogStopped _ => False
  | _ => True
  end.

(** The calls a cycle can make: requests, the log lines of a fetch and the
    two kinds of events. *)
Definition in_cycle (e : effect) : Prop :=
  match e with
  | HttpGet _ _ | LogHttpStatus _ _ | LogNetworkError _ _ | LogDecodeError _ _
  | ComponentEvent _ _ | IncidentEvent _ _ => True
  | _ => False
  end.

(** The intervals slept for, in order. *)
Definition sleeps (tr : list effect) : list Z :=
  omap (λ e, match e with Sleep n => Some n | _ => None end) tr.

(** * Properties *)

(** ** How the detectors unfold *)

Lemma after_nil {A} (r : run A) : after [] r = r.
Proof. by destruct r. Qed.

Lemma after_after {A} (t1 t2 : list effect) (r : run A) :
  after t1 (after t2 r) = after (t1 ++ t2) r.
Proof. unfold after; simpl. by rewrite app_assoc. Qed.

Lemma detect_component_changes_nil self :
  _detect_component_changes [] self = Run self [] (Return tt).
Proof. reflexivity. Qed.

Lemma detect_component_changes_cons c cs self :
  _detect_component_changes (c :: cs) self =
  match self.(last_known_state) !! state_key_of c with
  | None =>
      after [ComponentEvent c "Initial Status"]
        (_detect_component_changes cs (remember self c))
  | Some old_state =>
      if decide (old_state ≠ current_state_of c) then
        after [ComponentEvent c ("Status changed from " +:+ old_state)]
          (_detect_component_changes cs (remember self c))
      else _detect_component_changes cs self
  end.
Proof.
  unfold _detect_component_changes at 1; simpl for_each.
  fold (_detect_component_changes cs).
  cbv [mbind M_bind get_self]; simpl.
  destruct (last_known_state self !! state_key_of c) as [old|]; simpl.
  - by case_decide; simpl; rewrite ?after_nil.
  - done.
Qed.

Lemma detect_updates_of_cons incident u us self :
  detect_updates_of incident (u :: us) self =
  if decide (u.(IncidentUpdate.id) ∉ self.(processed_incident_updates)) then
    after [IncidentEvent incident u] (detect_updates_of incident us (mark self u))
  else detect_updates_of incident us self.
Proof.
  unfold detect_updates_of at 1; simpl for_each.
  fold (detect_updates_of incident us).
  cbv [mbind M_bind get_self]; simpl.
  by case_decide; simpl; rewrite ?after_nil.
Qed.

Lemma bind_run {A B} (m : M A) (f : A → M B) self :
  (m ≫= f) self =
  match result (m self) with
  | Return a => after (trace (m self)) (f a (final (m self)))
  | Raise e => Run (final (m self)) (trace (m self)) (Raise e)
  | IllTyped => Run (final (m self)) (trace (m self)) IllTyped
  end.
Proof. reflexivity. Qed.

Lemma for_each_cons {A} (x : A) xs body self :
  for_each (x :: xs) body self = (body x ≫= λ _, for_each xs body) self.
Proof. reflexivity. Qed.

(** ** The detectors never raise and touch one attribute each *)

Lemma detect_component_changes_result cs self :
  result (_detect_component_changes cs self) = Return tt.
Proof.
  revert self; induction cs as [|c cs IH]; intros self; [done|].
  rewrite detect_component_changes_cons.
  destruct (_ !! _); [case_decide|]; simpl; auto.
Qed.

Lemma detect_component_changes_frame cs self :
  let self' := final (_detect_component_changes cs self) in
  self'.(poll_interval) = self.(poll_interval) ∧
  self'.(etags) = self.(etags) ∧
  self'.(processed_incident_updates) = self.(processed_incident_updates).
Proof.
  revert self; induction cs as [|c cs IH]; intros self; [done|].
  rewrite detect_component_changes_cons.
  destruct (_ !! _); [case_decide|]; simpl; try apply IH.
  all: by destruct (IH (remember self c)) as (? & ? & ?).
Qed.

Lemma detect_updates_of_result incident us self :
  result (detect_updates_of incident us self) = Return tt.
Proof.
  revert self; induction us as [|u us IH]; intros self; [done|].
  rewrite detect_updates_of_cons. case_decide; simpl; auto.
Qed.

Lemma detect_incident_updates_cons incident incidents self :
  _detect_incident_updates (incident :: incidents) self =
  let r := detect_updates_of incident incident.(Incident.updates) self in
  after (trace r) (_detect_incident_updates incidents (final r)).
Proof.
  unfold _detect_incident_updates at 1. rewrite for_each_cons, bind_run.
  by rewrite detect_updates_of_result.
Qed.

Lemma detect_incident_updates_result incidents self :
  result (_detect_incident_updates incidents self) = Return tt.
Proof.
  revert self; induction incidents as [|i rest IH]; intros self; [done|].
  rewrite detect_incident_updates_cons; simpl; auto.
Qed.

Lemma detect_updates_of_frame incident us self :
  let self' := final (detect_updates_of incident us self) in
  self'.(poll_interval) = self.(poll_interval) ∧
  self'.(etags) = self.(etags) ∧
  self'.(last_known_state) = self.(last_known_state).
Proof.
  revert self; induction us as [|u us IH]; intros self; [done|].
  rewrite detect_updates_of_cons. case_decide; simpl; try apply IH.
  by destruct (IH (mark self u)) as (? & ? & ?).
Qed.

Lemma detect_incident_updates_frame incidents self :
  let self' := final (_detect_incident_updates incidents self) in
  self'.(poll_interval) = self.(poll_interval) ∧
  self'.(etags) = self.(etags) ∧
  self'.(last_known_state) = self.(last_known_state).
Proof.
  revert self; induction incidents as [|i rest IH]; intros self; [done|].
  rewrite detect_incident_updates_cons; simpl.
  destruct (IH (final (detect_updates_of i (Incident.updates i) self)))
    as (-> & -> & ->).
  apply detect_updates_of_frame.
Qed.

(** ** Components: what a pass stores and when it is silent *)

Lemma state_key_of_inj c c' :
  state_key_of c = state_key_of c' → c.(ComponentStatus.id) = c'.(ComponentStatus.id).
Proof. unfold state_key_of; simpl; intros H. by simplify_eq. Qed.

Lemma remember_lookup_ne self c k :
  k ≠ state_key_of c →
  (remember self c).(last_known_state) !! k = self.(last_known_state) !! k.
Proof. intros Hk; simpl. by rewrite lookup_insert_ne. Qed.

Lemma remember_lookup self c :
  (remember self c).(last_known_state) !! state_key_of c = Some (current_state_of c).
Proof. simpl. by rewrite lookup_insert_eq. Qed.

(** A pass leaves alone every key that is not the key of one of its
    components. *)
Lemma detect_component_changes_other_key cs self k :
  k ∉ state_key_of <$> cs →
  (final (_detect_component_changes cs self)).(last_known_state) !! k
  = self.(last_known_state) !! k.
Proof.
  revert self; induction cs as [|c cs IH]; intros self Hk; [done|].
  rewrite fmap_cons, not_elem_of_cons in Hk. destruct Hk as [Hc Hcs].
  rewrite detect_component_changes_cons.
  destruct (_ !! state_key_of c); [case_decide|]; simpl; rewrite IH by done.
  all: by rewrite ?remember_lookup_ne.
Qed.

(** A pass over components whose signatures are all stored already does
    nothing at all. *)
Lemma detect_component_changes_unchanged cs self :
  (∀ c, c ∈ cs →
        self.(last_known_state) !! state_key_of c = Some (current_state_of c)) →
  _detect_component_changes cs self = Run self [] (Return tt).
Proof.
  induction cs as [|c cs IH]; intros Hcs; [done|].
  rewrite detect_component_changes_cons, (Hcs c) by left.
  case_decide; [done|]. apply IH. intros c' Hc'. apply Hcs. by right.
Qed.

Lemma component_ids_keys (c : ComponentStatus.t) (cs : list ComponentStatus.t) :
  c.(ComponentStatus.id) ∉ ComponentStatus.id <$> cs →
  state_key_of c ∉ state_key_of <$> cs.
Proof.
  intros Hc (c' & Heq & Hin)%list_elem_of_fmap. apply Hc.
  apply list_elem_of_fmap. exists c'. split; [|done]. by apply state_key_of_inj.
Qed.

(** After a pass over components with distinct ids, each of them has its
    signature stored. *)
Lemma detect_component_changes_stores cs self :
  NoDup (ComponentStatus.id <$> cs) →
  ∀ c, c ∈ cs →
       (final (_detect_component_changes cs self)).(last_known_state)
         !! state_key_of c = Some (current_state_of c).
Proof.
  revert self; induction cs as [|c0 cs IH]; intros self Hnd c Hc.
  { by apply elem_of_nil in Hc. }
  rewrite fmap_cons in Hnd. apply NoDup_cons in Hnd as [Hc0 Hnd].
  apply elem_of_cons in Hc as [->|Hc].
  - apply component_ids_keys in Hc0.
    rewrite detect_component_changes_cons.
    destruct (last_known_state self !! state_key_of c0) as [old|] eqn:Hold;
      [case_decide as Hne|]; simpl;
      rewrite detect_component_changes_other_key by done.
    + apply remember_lookup.
    + rewrite Hold. f_equal. by destruct (decide (old = current_state_of c0)).
    + apply remember_lookup.
  - rewrite detect_component_changes_cons.
    destruct (last_known_state self !! state_key_of c0);
      [case_decide|]; simpl; by apply IH.
Qed.

(** A pass over components with distinct ids, none of them stored before,
    announces each of them once, in input order. *)
Lemma detect_component_changes_initial cs self :
  NoDup (ComponentStatus.id <$> cs) →
  (∀ c, c ∈ cs → self.(last_known_state) !! state_key_of c = None) →
  trace (_detect_component_changes cs self)
  = (λ c, ComponentEvent c "Initial Status") <$> cs.
Proof.
  revert self; induction cs as [|c cs IH]; intros self Hnd Hnew; [done|].
  rewrite fmap_cons in Hnd. apply NoDup_cons in Hnd as [Hc Hnd].
  rewrite detect_component_changes_cons, (Hnew c) by left. simpl.
  f_equal. apply IH; [done|]. intros c' Hc'.
  rewrite remember_lookup_ne; [apply Hnew; by right|].
  intros Heq. apply Hc. apply list_elem_of_fmap. exists c'.
  split; [|done]. symmetry. by apply state_key_of_inj.
Qed.

(** ** Incidents: the seen-set discipline *)

Lemma emitted_update_ids_app t1 t2 :
  emitted_update_ids (t1 ++ t2) = emitted_update_ids t1 ++ emitted_update_ids t2.
Proof. apply omap_app. Qed.

Lemma dedup_ok_silent self tr self' :
  emitted_update_ids tr = [] →
  self'.(processed_incident_updates) = self.(processed_incident_updates) →
  dedup_ok self tr self'.
Proof.
  intros Htr Hseen. unfold dedup_ok. rewrite Htr, Hseen. simpl.
  split_and!; [constructor|by intros i ?%elem_of_nil|set_solver].
Qed.

Lemma dedup_ok_app s t1 s1 t2 s2 :
  dedup_ok s t1 s1 → dedup_ok s1 t2 s2 → dedup_ok s (t1 ++ t2) s2.
Proof.
  intros (Hnd1 & Hfresh1 & Hseen1) (Hnd2 & Hfresh2 & Hseen2).
  unfold dedup_ok. rewrite emitted_update_ids_app. split_and!.
  - apply NoDup_app. split_and!; [done| |done].
    intros i Hi1 Hi2. apply (Hfresh2 i Hi2). rewrite Hseen1. set_solver.
  - intros i [Hi|Hi]%elem_of_app; [by apply Hfresh1|].
    intros Hs. apply (Hfresh2 i Hi). rewrite Hseen1. set_solver.
  - rewrite Hseen2, Hseen1, list_to_set_app_L. set_solver.
Qed.

Lemma dedup_ok_event s incident u :
  u.(IncidentUpdate.id) ∉ s.(processed_incident_updates) →
  dedup_ok s [IncidentEvent incident u] (mark s u).
Proof.
  intros Hu. unfold dedup_ok; simpl. split_and!.
  - apply NoDup_singleton.
  - by intros i ->%list_elem_of_singleton.
  - set_solver.
Qed.

Lemma dedup_M_ret {A} (a : A) : dedup_M (mret a).
Proof. intros self. by apply dedup_ok_silent. Qed.

Lemma dedup_M_lift {A} (o : outcome A) : dedup_M (lift o).
Proof. intros self. by apply dedup_ok_silent. Qed.

Lemma dedup_M_get_self : dedup_M get_self.
Proof. intros self. by apply dedup_ok_silent. Qed.

Lemma dedup_M_bind {A B} (m : M A) (f : A → M B) :
  dedup_M m → (∀ a, dedup_M (f a)) → dedup_M (m ≫= f).
Proof.
  intros Hm Hf self. rewrite bind_run. specialize (Hm self).
  destruct (result (m self)); simpl; try done.
  eapply dedup_ok_app; [done|apply Hf].
Qed.

Lemma dedup_M_try_except {A} (m : M A) handler :
  dedup_M m → (∀ e h, handler e = Some h → dedup_M h) →
  dedup_M (try_except m handler).
Proof.
  intros Hm Hh self. unfold try_except. specialize (Hm self).
  destruct (result (m self)) as [| e |]; try done.
  destruct (handler e) as [h|] eqn:He; [|done]. simpl.
  eapply dedup_ok_app; [done|]. by eapply Hh.
Qed.

Lemma dedup_M_for_each {A} (xs : list A) body :
  (∀ x, dedup_M (body x)) → dedup_M (for_each xs body).
Proof.
  intros Hbody. induction xs as [|x xs IH]; [apply dedup_M_ret|].
  simpl. apply dedup_M_bind; auto.
Qed.

Lemma dedup_M_detect_updates_of incident us :
  dedup_M (detect_updates_of incident us).
Proof.
  induction us as [|u us IH]; intros self; [by apply dedup_ok_silent|].
  rewrite detect_updates_of_cons. case_decide; [|apply IH].
  apply (dedup_ok_app self [IncidentEvent incident u] (mark self u));
    [by apply dedup_ok_event|apply IH].
Qed.

Lemma dedup_M_detect_incident_updates incidents :
  dedup_M (_detect_incident_updates incidents).
Proof. apply dedup_M_for_each. intros i. apply dedup_M_detect_updates_of. Qed.

(** ** What a fetch does, case by case *)

Lemma fetch_with_etag_run endpoint net self :
  _fetch_with_etag endpoint net self =
  let req := HttpGet (BASE_URL +:+ endpoint) (conditional_headers self endpoint) in
  match net with
  | GetRaises e => handled self req endpoint e
  | Response status etag body =>
      if decide (status = 304%Z) then Run self [req] (Return JNull)
      else if decide (status = 200%Z) then
        match body with
        | JsonBody payload => Run (store_etag self endpoint etag) [req] (Return payload)
        | JsonRaises e => handled (store_etag self endpoint etag) req endpoint e
        end
      else Run self [req; LogHttpStatus status endpoint] (Return JNull)
  end.
Proof.
  destruct net as [e|status etag body]; [by destruct e|].
  unfold _fetch_with_etag. cbv [mbind M_bind get_self try_except]; simpl.
  repeat case_decide; try done.
  destruct etag as [[|a rest]|], body as [payload|[]]; done.
Qed.

Lemma store_etag_frame self endpoint etag :
  (store_etag self endpoint etag).(poll_interval) = self.(poll_interval) ∧
  (store_etag self endpoint etag).(last_known_state) = self.(last_known_state) ∧
  (store_etag self endpoint etag).(processed_incident_updates)
  = self.(processed_incident_updates).
Proof. by destruct etag as [[|? ?]|]. Qed.

(** A fetch touches nothing but the validators. *)
Lemma fetch_with_etag_frame endpoint net self :
  let self' := final (_fetch_with_etag endpoint net self) in
  self'.(poll_interval) = self.(poll_interval) ∧
  self'.(last_known_state) = self.(last_known_state) ∧
  self'.(processed_incident_updates) = self.(processed_incident_updates).
Proof.
  rewrite fetch_with_etag_run.
  destruct net as [[]|status etag [payload|[]]]; simpl;
    repeat case_decide; simpl; try done; apply store_etag_frame.
Qed.

Lemma events_app t1 t2 : events (t1 ++ t2) = events t1 ++ events t2.
Proof. apply List.filter_app. Qed.

Lemma fetch_with_etag_events endpoint net self :
  events (trace (_fetch_with_etag endpoint net self)) = [].
Proof.
  rewrite fetch_with_etag_run.
  destruct net as [[]|status etag [payload|[]]]; simpl;
    repeat case_decide; done.
Qed.

Lemma emitted_update_ids_events tr :
  emitted_update_ids (events tr) = emitted_update_ids tr.
Proof.
  induction tr as [|[] tr IH]; simpl; try done. by rewrite <- IH.
Qed.

Lemma dedup_M_fetch_with_etag endpoint net : dedup_M (_fetch_with_etag endpoint net).
Proof.
  intros self. apply dedup_ok_silent; [|apply fetch_with_etag_frame].
  by rewrite <- emitted_update_ids_events, fetch_with_etag_events.
Qed.

(** ** The two stanzas of a cycle *)

Lemma after_trace_nil {A B} (r : run A) (o : outcome B) :
  after (trace r) (Run (final r) [] o) = Run (final r) (trace r) o.
Proof. unfold after; simpl. by rewrite app_nil_r. Qed.

Lemma check_summary_run net self :
  check_summary net self =
  let r := _fetch_with_etag SUMMARY_ENDPOINT net self in
  match result r with
  | Return summary_data =>
      if truthy summary_data then
        match _parse_components summary_data with
        | Return components =>
            after (trace r) (_detect_component_changes components (final r))
        | Raise e => Run (final r) (trace r) (Raise e)
        | IllTyped => Run (final r) (trace r) IllTyped
        end
      else Run (final r) (trace r) (Return tt)
  | Raise e => Run (final r) (trace r) (Raise e)
  | IllTyped => Run (final r) (trace r) IllTyped
  end.
Proof.
  unfold check_summary. rewrite bind_run. simpl.
  destruct (result _) as [data| |]; try done.
  destruct (truthy data); [|apply after_trace_nil].
  rewrite bind_run. unfold lift; simpl.
  destruct (_parse_components data); simpl; try apply after_trace_nil.
  by rewrite after_nil.
Qed.

Lemma check_incidents_run net self :
  check_incidents net self =
  let r := _fetch_with_etag INCIDENTS_ENDPOINT net self in
  match result r with
  | Return incidents_data =>
      if truthy incidents_data then
        match _parse_incidents incidents_data with
        | Return incidents =>
            after (trace r) (_detect_incident_updates incidents (final r))
        | Raise e => Run (final r) (trace r) (Raise e)
        | IllTyped => Run (final r) (trace r) IllTyped
        end
      else Run (final r) (trace r) (Return tt)
  | Raise e => Run (final r) (trace r) (Raise e)
  | IllTyped => Run (final r) (trace r) IllTyped
  end.
Proof.
  unfold check_incidents. rewrite bind_run. simpl.
  destruct (result _) as [data| |]; try done.
  destruct (truthy data); [|apply after_trace_nil].
  rewrite bind_run. unfold lift; simpl.
  destruct (_parse_incidents data); simpl; try apply after_trace_nil.
  by rewrite after_nil.
Qed.

(** ** The events of a pass follow the input order *)

Lemma detect_component_changes_trace cs self :
  ∃ evs, trace (_detect_component_changes cs self) = component_event <$> evs
         ∧ evs.*1 `sublist_of` cs.
Proof.
  revert self; induction cs as [|c cs IH]; intros self.
  { exists []. split; [done|constructor]. }
  rewrite detect_component_changes_cons.
  destruct (last_known_state self !! state_key_of c) as [old|];
    [case_decide|].
  - destruct (IH (remember self c)) as (evs & Htr & Hsub).
    exists ((c, "Status changed from " +:+ old) :: evs). simpl.
    rewrite Htr. split; [done|by constructor].
  - destruct (IH self) as (evs & Htr & Hsub).
    exists evs. split; [done|by constructor].
  - destruct (IH (remember self c)) as (evs & Htr & Hsub).
    exists ((c, "Initial Status") :: evs). simpl.
    rewrite Htr. split; [done|by constructor].
Qed.

Lemma detect_updates_of_trace incident us self :
  ∃ evs, trace (detect_updates_of incident us self) = incident_event <$> evs
         ∧ evs `sublist_of` ((λ update, (incident, update)) <$> us).
Proof.
  revert self; induction us as [|u us IH]; intros self.
  { exists []. split; [done|constructor]. }
  rewrite detect_updates_of_cons. case_decide.
  - destruct (IH (mark self u)) as (evs & Htr & Hsub).
    exists ((incident, u) :: evs). simpl. rewrite Htr.
    split; [done|by constructor].
  - destruct (IH self) as (evs & Htr & Hsub).
    exists evs. split; [done|by constructor].
Qed.

Lemma detect_incident_updates_trace incidents self :
  ∃ evs, trace (_detect_incident_updates incidents self) = incident_event <$> evs
         ∧ evs `sublist_of` visits incidents.
Proof.
  revert self; induction incidents as [|i rest IH]; intros self.
  { exists []. split; [done|constructor]. }
  rewrite detect_incident_updates_cons; simpl.
  destruct (detect_updates_of_trace i (Incident.updates i) self)
    as (evs1 & Htr1 & Hsub1).
  destruct (IH (final (detect_updates_of i (Incident.updates i) self)))
    as (evs2 & Htr2 & Hsub2).
  exists (evs1 ++ evs2). rewrite Htr1, Htr2, fmap_app.
  split; [done|]. unfold visits; simpl. by apply sublist_app.
Qed.

Lemma events_component_events evs : events (component_event <$> evs) = component_event <$> evs.
Proof. induction evs as [|p evs IH]; simpl; [done|]. by f_equal. Qed.

Lemma events_incident_events evs : events (incident_event <$> evs) = incident_event <$> evs.
Proof. induction evs as [|p evs IH]; simpl; [done|]. by f_equal. Qed.

(** ** Incidents: what a pass marks, and replaying a feed *)

Lemma detect_updates_of_seen incident us self :
  (final (detect_updates_of incident us self)).(processed_incident_updates)
  = self.(processed_incident_updates) ∪ list_to_set (IncidentUpdate.id <$> us).
Proof.
  revert self; induction us as [|u us IH]; intros self.
  { simpl. set_solver. }
  rewrite detect_updates_of_cons. case_decide as Hu; simpl; rewrite IH.
  - simpl. set_solver.
  - set_solver.
Qed.

Lemma detect_updates_of_silent incident us self :
  (∀ u, u ∈ us → u.(IncidentUpdate.id) ∈ self.(processed_incident_updates)) →
  detect_updates_of incident us self = Run self [] (Return tt).
Proof.
  induction us as [|u us IH]; intros Hus; [done|].
  rewrite detect_updates_of_cons. case_decide as Hu.
  - destruct Hu. apply Hus. by left.
  - apply IH. intros u' Hu'. apply Hus. by right.
Qed.

Lemma detect_incident_updates_seen incidents self :
  (final (_detect_incident_updates incidents self)).(processed_incident_updates)
  = self.(processed_incident_updates)
    ∪ list_to_set ((λ p, p.2.(IncidentUpdate.id)) <$> visits incidents).
Proof.
  revert self; induction incidents as [|i rest IH]; intros self.
  { simpl. set_solver. }
  rewrite detect_incident_updates_cons; simpl.
  rewrite IH, detect_updates_of_seen. unfold visits; simpl.
  rewrite fmap_app, list_to_set_app_L, <- list_fmap_compose.
  by rewrite (assoc_L (∪)).
Qed.

Lemma detect_incident_updates_silent incidents self :
  (∀ p, p ∈ visits incidents →
        p.2.(IncidentUpdate.id) ∈ self.(processed_incident_updates)) →
  _detect_incident_updates incidents self = Run self [] (Return tt).
Proof.
  induction incidents as [|i rest IH]; intros Hseen; [done|].
  rewrite detect_incident_updates_cons.
  unfold visits in Hseen; simpl in Hseen.
  rewrite detect_updates_of_silent; simpl.
  - rewrite IH; [done|]. intros p Hp. apply Hseen, elem_of_app. by right.
  - intros u Hu. apply (Hseen (i, u)), elem_of_app. left.
    apply list_elem_of_fmap. by exists u.
Qed.

(** Replaying a feed right after it was observed does nothing. *)
Lemma detect_incident_updates_replay incidents self :
  let r := _detect_incident_updates incidents self in
  _detect_incident_updates incidents (final r) = Run (final r) [] (Return tt).
Proof.
  intros r. apply detect_incident_updates_silent. intros p Hp.
  unfold r. rewrite detect_incident_updates_seen.
  apply elem_of_union_r, elem_of_list_to_set, list_elem_of_fmap. by exists p.
Qed.

(** A sequence of calls, one feed after the other. *)
Lemma for_each_detect_result (calls : list (list Incident.t)) self :
  result (for_each calls _detect_incident_updates self) = Return tt.
Proof.
  revert self; induction calls as [|incidents calls IH]; intros self; [done|].
  rewrite for_each_cons, bind_run, detect_incident_updates_result. simpl. apply IH.
Qed.

(** C2.  Over any sequence of calls of [_detect_incident_updates], from any
    monitor: the incident events emitted are for pairwise distinct update
    ids (each id gets at most one event), none of them for an id already in
    [processed_incident_updates], and the ids emitted are exactly what the
    set gained; no call raises; and feeding the same incidents again right
    after a call emits nothing and changes nothing. *)
Theorem incident_update_emitted_at_most_once
    (calls : list (list Incident.t)) (self : Monitor) :
  let r := for_each calls _detect_incident_updates self in
  let ids := emitted_update_ids (trace r) in
  NoDup ids ∧
  (∀ i, i ∈ ids → i ∉ self.(processed_incident_updates)) ∧
  (final r).(processed_incident_updates)
  = self.(processed_incident_updates) ∪ list_to_set ids ∧
  result r = Return tt ∧
  (∀ incidents,
     let r1 := _detect_incident_updates incidents self in
     _detect_incident_updates incidents (final r1) = Run (final r1) [] (Return tt)).
Proof.
  intros r ids.
  destruct (dedup_M_for_each calls _detect_incident_updates
              dedup_M_detect_incident_updates self) as (Hnd & Hfresh & Hseen).
  split_and!; try done.
  - apply for_each_detect_result.
  - intros incidents. apply detect_incident_updates_replay.
Qed.

Lemma incident_update_emitted_at_most_once_witness :
  let u1 := IncidentUpdate.Make "u1" "Investigating" "t1" "t1" "investigating" "i1" in
  let u2 := IncidentUpdate.Make "u2" "Identified" "t2" "t2" "identified" "i1" in
  let u3 := IncidentUpdate.Make "u3" "Resolved" "t3" "t3" "resolved" "i1" in
  let incident updates :=
    Incident.Make "i1" "API errors" "investigating" "t1" "t3" None "minor" updates in
  let calls := [[incident [u1; u2]]; [incident [u1; u2]]; [incident [u1; u2; u3]]] in
  let r := for_each calls _detect_incident_updates (__init__ 30) in
  NoDup (emitted_update_ids (trace r)) ∧
  (final r).(processed_incident_updates)
  = (__init__ 30).(processed_incident_updates)
    ∪ list_to_set (emitted_update_ids (trace r)) ∧
  result r = Return tt.
Proof.
  intros u1 u2 u3 incident calls.
  destruct (incident_update_emitted_at_most_once calls (__init__ 30))
    as (Hnd & _ & Hseen & Hresult & _).
  split_and!; [exact Hnd|exact Hseen|exact Hresult].
Defined.

(** The scenario of the specification: two updates give two events, the
    same feed again gives none, a third update gives one more. *)
Example incident_scenario :
  let u1 := IncidentUpdate.Make "u1" "Investigating" "t1" "t1" "investigating" "i1" in
  let u2 := IncidentUpdate.Make "u2" "Identified" "t2" "t2" "identified" "i1" in
  let u3 := IncidentUpdate.Make "u3" "Resolved" "t3" "t3" "resolved" "i1" in
  let incident updates :=
    Incident.Make "i1" "API errors" "investigating" "t1" "t3" None "minor" updates in
  let first := _detect_incident_updates [incident [u1; u2]] (__init__ 30) in
  let second := _detect_incident_updates [incident [u1; u2]] (final first) in
  let third := _detect_incident_updates [incident [u1; u2; u3]] (final second) in
  trace first = [IncidentEvent (incident [u1; u2]) u1; IncidentEvent (incident [u1; u2]) u2] ∧
  trace second = [] ∧
  trace third = [IncidentEvent (incident [u1; u2; u3]) u3].
Proof. by vm_compute. Qed.

(** ** The seen-set discipline over whole cycles *)

Lemma emitted_update_ids_component_events evs :
  emitted_update_ids (component_event <$> evs) = [].
Proof. by induction evs. Qed.

Lemma dedup_M_detect_component_changes cs : dedup_M (_detect_component_changes cs).
Proof.
  intros self. apply dedup_ok_silent; [|apply detect_component_changes_frame].
  destruct (detect_component_changes_trace cs self) as (evs & -> & _).
  apply emitted_update_ids_component_events.
Qed.

Lemma dedup_M_call e :
  emitted_update_ids [e] = [] → dedup_M (call e).
Proof. intros He self. by apply dedup_ok_silent. Qed.

Lemma dedup_M_if {A} (b : bool) (m1 m2 : M A) :
  dedup_M m1 → dedup_M m2 → dedup_M (if b then m1 else m2).
Proof. by destruct b. Qed.

Create HintDb dedup.
#[local] Hint Resolve dedup_M_ret dedup_M_lift dedup_M_get_self dedup_M_bind
  dedup_M_if dedup_M_call dedup_M_fetch_with_etag
  dedup_M_detect_component_changes dedup_M_detect_incident_updates : dedup.
#[local] Hint Extern 1 (emitted_update_ids _ = []) => reflexivity : dedup.

Lemma dedup_M_check_status_updates summary_net incidents_net :
  dedup_M (check_status_updates summary_net incidents_net).
Proof.
  unfold check_status_updates, check_summary, check_incidents.
  auto 10 with dedup.
Qed.

Lemma dedup_M_monitoring_loop cycles : dedup_M (monitoring_loop cycles).
Proof.
  induction cycles as [|[summary_net incidents_net] later IH]; simpl;
    auto 10 using dedup_M_check_status_updates with dedup.
Qed.

(** Over a whole run of [start_monitoring], whatever the network answers,
    no update id gets two incident events. *)
Lemma start_monitoring_dedup cycles : dedup_M (start_monitoring cycles).
Proof.
  unfold start_monitoring.
  repeat (apply dedup_M_bind; [auto with dedup|intros ?]).
  apply dedup_M_try_except; [apply dedup_M_monitoring_loop|].
  intros e h [= <-]. auto with dedup.
Qed.

(** ** Components: the claims *)

(** The scenario of the specification: a new component, then a changed
    status citing the stored signature, then the same payload again. *)
Example component_scenario :
  let api := ComponentStatus.Make "c1" "API" "operational" "t1" 1 in
  let api' := ComponentStatus.Make "c1" "API" "degraded_performance" "t1" 1 in
  let first := _detect_component_changes [api] (__init__ 30) in
  let second := _detect_component_changes [api'] (final first) in
  let third := _detect_component_changes [api'] (final second) in
  trace first = [ComponentEvent api "Initial Status"] ∧
  trace second = [ComponentEvent api' "Status changed from API:operational"] ∧
  trace third = [].
Proof. by vm_compute. Qed.

(** C1.  The code stores the signature as the one string [name:status], so
    two different (name, status) pairs with the same concatenation are not
    told apart: with ("a:b", "c") stored for component c1, a pass over c1
    with ("a", "b:c") finds the stored string equal to the current one,
    emits no event and leaves the monitor as it was. *)
Theorem detect_component_changes_colon_collision :
  let stored := ComponentStatus.Make "c1" "a:b" "c" "t1" 1 in
  let current := ComponentStatus.Make "c1" "a" "b:c" "t2" 1 in
  let self := final (_detect_component_changes [stored] (__init__ 30)) in
  (stored.(ComponentStatus.name), stored.(ComponentStatus.status))
  ≠ (current.(ComponentStatus.name), current.(ComponentStatus.status)) ∧
  self.(last_known_state) !! state_key_of current = Some (current_state_of stored) ∧
  _detect_component_changes [current] self = Run self [] (Return tt).
Proof.
  intros stored current self. split_and!.
  - by intros [=].
  - by vm_compute.
  - apply detect_component_changes_unchanged.
    intros c ->%list_elem_of_singleton. by vm_compute.
Qed.

(** C3, as the code has it.  For a components payload whose ids are
    pairwise distinct, from any monitor: a second pass over the same
    payload right after the first emits nothing and leaves the monitor as
    the first pass left it, and neither pass raises; when moreover none of
    the ids is stored before the first pass (a fresh monitor), the first
    pass emits exactly one "Initial Status" event per component, in input
    order. *)
Theorem detect_component_changes_replay
    (components : list ComponentStatus.t) (self : Monitor) :
  NoDup (ComponentStatus.id <$> components) →
  let r1 := _detect_component_changes components self in
  let r2 := _detect_component_changes components (final r1) in
  trace r2 = [] ∧ final r2 = final r1 ∧
  result r1 = Return tt ∧ result r2 = Return tt ∧
  ((∀ c, c ∈ components → self.(last_known_state) !! state_key_of c = None) →
   trace r1 = (λ c, ComponentEvent c "Initial Status") <$> components).
Proof.
  intros Hnd r1 r2.
  assert (r2 = Run (final r1) [] (Return tt)) as ->.
  { apply detect_component_changes_unchanged. intros c Hc.
    by apply detect_component_changes_stores. }
  split_and!; try done.
  - apply detect_component_changes_result.
  - by apply detect_component_changes_initial.
Qed.

Lemma detect_component_changes_replay_witness :
  let components := [ComponentStatus.Make "c1" "API" "operational" "t1" 1;
                     ComponentStatus.Make "c2" "ChatGPT" "major_outage" "t1" 2] in
  let r1 := _detect_component_changes components (__init__ 30) in
  let r2 := _detect_component_changes components (final r1) in
  trace r2 = [] ∧ final r2 = final r1 ∧
  result r1 = Return tt ∧ result r2 = Return tt ∧
  ((∀ c, c ∈ components →
         (__init__ 30).(last_known_state) !! state_key_of c = None) →
   trace r1 = (λ c, ComponentEvent c "Initial Status") <$> components).
Proof.
  intros components.
  apply (detect_component_changes_replay components (__init__ 30)).
  by apply (bool_decide_unpack _).
Defined.

(** C3 fails on a payload that lists one id twice with different statuses:
    the second pass over it emits two "changed" events instead of none. *)
Lemma detect_component_changes_replay_duplicate_id :
  let up := ComponentStatus.Make "c1" "API" "operational" "t1" 1 in
  let down := ComponentStatus.Make "c1" "API" "major_outage" "t1" 1 in
  let r1 := _detect_component_changes [up; down] (__init__ 30) in
  let r2 := _detect_component_changes [up; down] (final r1) in
  trace r2 = [ComponentEvent up "Status changed from API:major_outage";
              ComponentEvent down "Status changed from API:operational"]
  ∧ trace r2 ≠ [].
Proof. by vm_compute. Qed.

(** ** Parsing a feed with an incomplete record *)

Lemma mapM_raise {A B} (f : A → outcome B) good bad rest e :
  Forall (λ x, ∃ y, f x = Return y) good →
  f bad = Raise e →
  mapM f (good ++ bad :: rest) = Raise e.
Proof.
  intros Hgood Hbad. induction Hgood as [|x good [y Hy] _ IH]; simpl.
  - by rewrite Hbad.
  - by rewrite Hy, IH.
Qed.

Lemma read_component_missing members key :
  first_missing required_component_fields members = Some key →
  read_component (JObj members) = Raise (KeyError key).
Proof.
  unfold read_component, py_getitem; simpl.
  repeat (destruct (assoc _ members); simpl; [|by intros [= <-]]). done.
Qed.

Lemma read_component_complete record :
  complete required_component_fields record →
  ∃ built, read_component record = Return built.
Proof.
  intros (members & -> & Hall). revert Hall.
  unfold read_component, py_getitem; simpl.
  repeat (destruct (assoc _ members); simpl; [|done]). eauto.
Qed.

Lemma parse_component_missing members key :
  first_missing required_component_fields members = Some key →
  parse_component (JObj members) = Raise (KeyError key).
Proof. intros H. unfold parse_component. by rewrite (read_component_missing _ _ H). Qed.

Lemma read_update_missing members key :
  first_missing required_update_fields members = Some key →
  read_update (JObj members) = Raise (KeyError key).
Proof.
  unfold read_update, py_getitem; simpl.
  repeat (destruct (assoc _ members); simpl; [|by intros [= <-]]). done.
Qed.

Lemma read_update_complete record :
  complete required_update_fields record →
  ∃ built, read_update record = Return built.
Proof.
  intros (members & -> & Hall). revert Hall.
  unfold read_update, py_getitem; simpl.
  repeat (destruct (assoc _ members); simpl; [|done]). eauto.
Qed.

Lemma mapM_complete {A B} (f : A → outcome B) (P : A → Prop) xs :
  (∀ x, P x → ∃ y, f x = Return y) →
  Forall P xs → ∃ ys, mapM f xs = Return ys.
Proof.
  intros Hf. induction 1 as [|x xs Hx _ [ys IH]]; [by exists []|].
  destruct (Hf x Hx) as [y Hy]. exists (y :: ys). simpl. by rewrite Hy, IH.
Qed.

Lemma read_incident_missing members key :
  complete_updates (JObj members) →
  first_missing required_incident_fields members = Some key →
  read_incident (JObj members) = Raise (KeyError key).
Proof.
  intros (items & Hitems & Hcomplete).
  destruct (mapM_complete read_update _ items read_update_complete Hcomplete)
    as [updates Hupdates].
  revert Hitems. unfold updates_of, read_incident, py_getitem; simpl.
  intros ->; simpl. rewrite Hupdates; simpl.
  repeat (destruct (assoc _ members); simpl; [|by intros [= <-]]). done.
Qed.

Lemma read_incident_complete record :
  complete_incident record → ∃ built, read_incident record = Return built.
Proof.
  intros [(members & -> & Hall) (items & Hitems & Hcomplete)].
  destruct (mapM_complete read_update _ items read_update_complete Hcomplete)
    as [updates Hupdates].
  revert Hitems Hall. unfold updates_of, read_incident, py_getitem; simpl.
  intros ->; simpl. rewrite Hupdates; simpl.
  repeat (destruct (assoc _ members); simpl; [|done]). eauto.
Qed.

Lemma read_incident_update_missing members good bad rest key :
  assoc "incident_updates" members = Some (JArr (good ++ JObj bad :: rest)) →
  Forall (complete required_update_fields) good →
  first_missing required_update_fields bad = Some key →
  read_incident (JObj members) = Raise (KeyError key).
Proof.
  intros Hfeed Hgood Hbad. unfold read_incident; simpl. rewrite Hfeed; simpl.
  rewrite (mapM_raise _ _ _ _ (KeyError key)); [done| |by apply read_update_missing].
  eapply Forall_impl; [done|]. apply read_update_complete.
Qed.

Lemma parse_components_raise members good bad rest e :
  assoc "components" members = Some (JArr (good ++ bad :: rest)) →
  Forall (complete required_component_fields) good →
  read_component bad = Raise e →
  _parse_components (JObj members) = Raise e.
Proof.
  intros Hfeed Hgood Hbad. unfold _parse_components; simpl. rewrite Hfeed; simpl.
  rewrite (mapM_raise _ _ _ _ e); [done| |done].
  eapply Forall_impl; [done|]. apply read_component_complete.
Qed.

Lemma parse_components_missing members good bad rest key :
  assoc "components" members = Some (JArr (good ++ JObj bad :: rest)) →
  Forall (complete required_component_fields) good →
  first_missing required_component_fields bad = Some key →
  _parse_components (JObj members) = Raise (KeyError key).
Proof.
  intros Hfeed Hgood Hbad. eapply parse_components_raise; [done..|].
  by apply read_component_missing.
Qed.

Lemma parse_incidents_raise members good bad rest e :
  assoc "incidents" members = Some (JArr (good ++ bad :: rest)) →
  Forall complete_incident good →
  read_incident bad = Raise e →
  _parse_incidents (JObj members) = Raise e.
Proof.
  intros Hfeed Hgood Hbad. unfold _parse_incidents; simpl. rewrite Hfeed; simpl.
  rewrite (mapM_raise _ _ _ _ e); [done| |done].
  eapply Forall_impl; [done|]. apply read_incident_complete.
Qed.

(** ** A cycle that meets an exception *)

(** The stanzas on a 200 response whose body decodes. *)
Lemma check_summary_fresh etag payload self :
  check_summary (Response 200 etag (JsonBody payload)) self =
  let req := HttpGet (BASE_URL +:+ SUMMARY_ENDPOINT)
               (conditional_headers self SUMMARY_ENDPOINT) in
  let self' := store_etag self SUMMARY_ENDPOINT etag in
  if truthy payload then
    match _parse_components payload with
    | Return components => after [req] (_detect_component_changes components self')
    | Raise e => Run self' [req] (Raise e)
    | IllTyped => Run self' [req] IllTyped
    end
  else Run self' [req] (Return tt).
Proof. by rewrite check_summary_run, fetch_with_etag_run. Qed.

Lemma check_incidents_fresh etag payload self :
  check_incidents (Response 200 etag (JsonBody payload)) self =
  let req := HttpGet (BASE_URL +:+ INCIDENTS_ENDPOINT)
               (conditional_headers self INCIDENTS_ENDPOINT) in
  let self' := store_etag self INCIDENTS_ENDPOINT etag in
  if truthy payload then
    match _parse_incidents payload with
    | Return incidents => after [req] (_detect_incident_updates incidents self')
    | Raise e => Run self' [req] (Raise e)
    | IllTyped => Run self' [req] IllTyped
    end
  else Run self' [req] (Return tt).
Proof. by rewrite check_incidents_run, fetch_with_etag_run. Qed.

Lemma assoc_truthy key members v : assoc key members = Some v → truthy (JObj members) = true.
Proof. by destruct members. Qed.

(** An exception in the summary stanza ends the cycle there. *)
Lemma check_status_updates_summary_raises summary_net incidents_net self e :
  result (check_summary summary_net self) = Raise e →
  check_status_updates summary_net incidents_net self
  = Run (final (check_summary summary_net self))
        (trace (check_summary summary_net self)) (Raise e).
Proof. intros He. unfold check_status_updates. by rewrite bind_run, He. Qed.

(** An exception in a cycle ends the loop: it is logged and
    [start_monitoring] returns. *)
Lemma start_monitoring_cycle_raises summary_net incidents_net later self e :
  result (check_status_updates summary_net incidents_net self) = Raise e →
  let r := check_status_updates summary_net incidents_net self in
  start_monitoring ((summary_net, incidents_net) :: later) self
  = Run (final r)
        ([LogStarting self.(poll_interval); PrintBanner] ++ trace r ++ [LogStopped e])
        (Return tt).
Proof.
  intros He r. unfold start_monitoring.
  cbv [mbind M_bind get_self call try_except]; simpl.
  fold (check_status_updates summary_net incidents_net self).
  change (M_bind _ _ (λ _ : (), ?k) ?m ?s) with ((m ≫= λ _, k) s).
  rewrite bind_run, He. done.
Qed.

(** C4, as the code has it.  When, in a summary payload, the records before
    some component record are complete (each has the five required keys,
    whatever the values) and that record lacks a required field,
    [_parse_components] raises [KeyError] with the first missing key (there
    is no [MalformedPayload] error, and the record is not named).  Nothing
    catches it in the cycle: [check_status_updates] ends with that
    [KeyError] right after the summary request, so the incidents endpoint
    is not requested, and [start_monitoring] logs the error and returns, so
    no later cycle runs.  An incident record that lacks a required field,
    its updates and the incident records before it being complete, makes
    [_parse_incidents], and with it [check_incidents], raise [KeyError] in
    the same way. *)
Theorem malformed_summary_stops_monitor
    (members : list (string * json)) (good rest : list json)
    (bad : list (string * json)) (key : string) (etag : option string)
    (incidents_net : http_result) (later : list (http_result * http_result))
    (self : Monitor) :
  assoc "components" members = Some (JArr (good ++ JObj bad :: rest)) →
  Forall (complete required_component_fields) good →
  first_missing required_component_fields bad = Some key →
  let summary_net := Response 200 etag (JsonBody (JObj members)) in
  let req := HttpGet (BASE_URL +:+ SUMMARY_ENDPOINT)
               (conditional_headers self SUMMARY_ENDPOINT) in
  let self' := store_etag self SUMMARY_ENDPOINT etag in
  _parse_components (JObj members) = Raise (KeyError key) ∧
  check_status_updates summary_net incidents_net self
  = Run self' [req] (Raise (KeyError key)) ∧
  start_monitoring ((summary_net, incidents_net) :: later) self
  = Run self'
      [LogStarting self.(poll_interval); PrintBanner; req; LogStopped (KeyError key)]
      (Return tt) ∧
  (∀ imembers igood ibad irest ikey etag' self0,
     assoc "incidents" imembers = Some (JArr (igood ++ JObj ibad :: irest)) →
     Forall complete_incident igood →
     complete_updates (JObj ibad) →
     first_missing required_incident_fields ibad = Some ikey →
     _parse_incidents (JObj imembers) = Raise (KeyError ikey) ∧
     result (check_incidents (Response 200 etag' (JsonBody (JObj imembers))) self0)
     = Raise (KeyError ikey)).
Proof.
  intros Hfeed Hgood Hbad summary_net req self'.
  pose proof (parse_components_missing _ _ _ _ _ Hfeed Hgood Hbad) as Hparse.
  assert (check_summary summary_net self = Run self' [req] (Raise (KeyError key)))
    as Hsummary.
  { unfold summary_net. rewrite check_summary_fresh; cbv zeta.
    by rewrite (assoc_truthy _ _ _ Hfeed), Hparse. }
  assert (check_status_updates summary_net incidents_net self
          = Run self' [req] (Raise (KeyError key))) as Hcycle.
  { rewrite (check_status_updates_summary_raises _ _ _ (KeyError key));
      by rewrite Hsummary. }
  split_and!; try done.
  - rewrite (start_monitoring_cycle_raises _ _ _ _ (KeyError key));
      by rewrite Hcycle.
  - intros imembers igood ibad irest ikey etag' self0 Hi Higood Hups Hibad.
    assert (_parse_incidents (JObj imembers) = Raise (KeyError ikey)) as Hp.
    { eapply parse_incidents_raise; [done..|].
      by apply read_incident_missing. }
    split; [done|].
    rewrite check_incidents_fresh; cbv zeta.
    by rewrite (assoc_truthy _ _ _ Hi), Hp.
Qed.

Lemma malformed_summary_stops_monitor_witness :
  let untyped := JObj [("id", JInt 5); ("name", JStr "API");
                       ("status", JStr "operational");
                       ("updated_at", JStr "t1"); ("position", JInt 1)] in
  let bad := [("id", JStr "c2"); ("status", JStr "operational");
              ("updated_at", JStr "t1"); ("position", JInt 2)] in
  let members := [("components", JArr [untyped; JObj bad])] in
  let summary_net := Response 200 (Some "v1") (JsonBody (JObj members)) in
  let incidents_net := Response 304 None (JsonBody JNull) in
  let self := __init__ 30 in
  let req := HttpGet (BASE_URL +:+ SUMMARY_ENDPOINT)
               (conditional_headers self SUMMARY_ENDPOINT) in
  let self' := store_etag self SUMMARY_ENDPOINT (Some "v1") in
  _parse_components (JObj members) = Raise (KeyError "name") ∧
  check_status_updates summary_net incidents_net self
  = Run self' [req] (Raise (KeyError "name")) ∧
  start_monitoring [(summary_net, incidents_net); (summary_net, incidents_net)] self
  = Run self'
      [LogStarting 30; PrintBanner; req; LogStopped (KeyError "name")]
      (Return tt).
Proof.
  intros untyped bad members summary_net incidents_net self req self'.
  destruct (malformed_summary_stops_monitor members [untyped] [] bad "name"
              (Some "v1") incidents_net [(summary_net, incidents_net)] self)
    as (Hparse & Hcycle & Hloop & _).
  - reflexivity.
  - constructor; [|constructor]. eexists. split; reflexivity.
  - reflexivity.
  - split_and!; [exact Hparse|exact Hcycle|exact Hloop].
Defined.

(** C4 fails on a summary payload whose only component record has no
    "name": the cycle ends with [KeyError] after the summary request alone,
    the incidents endpoint is not requested although it had a new update to
    deliver, and the loop stops before the second scheduled cycle. *)
Lemma malformed_summary_not_recovered :
  let summary_net :=
    Response 200 None
      (JsonBody (JObj [("components",
         JArr [JObj [("id", JStr "c1"); ("status", JStr "operational");
                     ("updated_at", JStr "t1"); ("position", JInt 1)]])])) in
  let incidents_net :=
    Response 200 None
      (JsonBody (JObj [("incidents",
         JArr [JObj [("id", JStr "i1"); ("name", JStr "API errors");
                     ("status", JStr "investigating");
                     ("created_at", JStr "t1"); ("updated_at", JStr "t1");
                     ("impact", JStr "minor");
                     ("incident_updates",
                      JArr [JObj [("id", JStr "u1"); ("body", JStr "Looking");
                                  ("created_at", JStr "t1");
                                  ("display_at", JStr "t1");
                                  ("status", JStr "investigating");
                                  ("incident_id", JStr "i1")]])]])])) in
  let summary_request := HttpGet (BASE_URL +:+ SUMMARY_ENDPOINT) [] in
  check_status_updates summary_net incidents_net (__init__ 30)
  = Run (__init__ 30) [summary_request] (Raise (KeyError "name")) ∧
  events (trace (check_status_updates (Response 304 None (JsonBody JNull))
                   incidents_net (__init__ 30))) ≠ [] ∧
  trace (start_monitoring [(summary_net, incidents_net);
                           (summary_net, incidents_net)] (__init__ 30))
  = [LogStarting 30; PrintBanner; summary_request; LogStopped (KeyError "name")].
Proof. by vm_compute. Qed.

(** ** Fetching: the claims *)

Lemma handled_result self req endpoint e :
  result (handled self req endpoint e) = swallowed e.
Proof. by destruct e. Qed.

Lemma handled_final self req endpoint e : final (handled self req endpoint e) = self.
Proof. by destruct e. Qed.

Lemma fetch_with_etag_result endpoint net self :
  result (_fetch_with_etag endpoint net self) =
  match net with
  | GetRaises e => swallowed e
  | Response status _ body =>
      if decide (status = 200%Z) then
        match body with
        | JsonBody payload => Return payload
        | JsonRaises e => swallowed e
        end
      else Return JNull
  end.
Proof.
  rewrite fetch_with_etag_run.
  destruct net as [e|status etag body]; simpl; [apply handled_result|].
  repeat case_decide; simplify_eq; try done.
  destruct body; [done|apply handled_result].
Qed.

(** C5, as the code has it.  [_fetch_with_etag] hands its caller one of two
    things, not three: the decoded payload, for a 200 response whose body
    decodes, or [None], for a 304, for any other status, for a network
    error and for a decode error alike (an exception of another class is
    not caught).  The monitor is left the same by a 304, by another status
    and by an exception of the request itself; a 200 response has its
    validator stored whether its body decodes or not, so an error raised
    while the body is read returns [None] with the validator already
    replaced.  A 304 and a network error of the request give the same
    result and leave the same monitor; they differ only in the line the
    failure logs.  The validator of a fresh response is not returned: it is
    stored in [etags]. *)
Theorem fetch_with_etag_outcomes
    (endpoint : string) (net : http_result) (self : Monitor) :
  result (_fetch_with_etag endpoint net self) =
  match net with
  | GetRaises e => swallowed e
  | Response status _ body =>
      if decide (status = 200%Z) then
        match body with
        | JsonBody payload => Return payload
        | JsonRaises e => swallowed e
        end
      else Return JNull
  end ∧
  final (_fetch_with_etag endpoint net self) =
  match net with
  | GetRaises _ => self
  | Response status etag _ =>
      if decide (status = 200%Z) then store_etag self endpoint etag else self
  end ∧
  (∀ etag body msg,
     let unchanged := _fetch_with_etag endpoint (Response 304 etag body) self in
     let failed := _fetch_with_etag endpoint (GetRaises (ClientError msg)) self in
     result unchanged = Return JNull ∧ result failed = Return JNull ∧
     final unchanged = self ∧ final failed = self ∧
     trace failed = trace unchanged ++ [LogNetworkError endpoint (ClientError msg)]) ∧
  (∀ etag msg,
     _fetch_with_etag endpoint (Response 200 etag (JsonRaises (JSONDecodeError msg))) self
     = Run (store_etag self endpoint etag)
         [request self endpoint; LogDecodeError endpoint (JSONDecodeError msg)]
         (Return JNull) ∧
     _fetch_with_etag endpoint (Response 200 etag (JsonRaises (ClientError msg))) self
     = Run (store_etag self endpoint etag)
         [request self endpoint; LogNetworkError endpoint (ClientError msg)]
         (Return JNull)) ∧
  (∀ etag payload,
     _fetch_with_etag endpoint (Response 200 etag (JsonBody payload)) self
     = Run (store_etag self endpoint etag) [request self endpoint] (Return payload)).
Proof.
  split_and!; [apply fetch_with_etag_result| | | |].
  - rewrite fetch_with_etag_run; cbv zeta.
    destruct net as [e|status etag [payload|e]]; [apply handled_final|..];
      repeat case_decide; simplify_eq; try done.
    apply handled_final.
  - intros etag body msg. by rewrite !fetch_with_etag_run.
  - intros etag msg. by rewrite !fetch_with_etag_run.
  - intros etag payload. by rewrite fetch_with_etag_run.
Qed.

(** C5 fails at the caller: a 304, a network error and a 200 whose body is
    the JSON value null all come back as the same [None], with the monitor
    the same. *)
Lemma fetch_unchanged_like_failed :
  let self := __init__ 30 in
  let unchanged :=
    _fetch_with_etag SUMMARY_ENDPOINT (Response 304 None (JsonBody JNull)) self in
  let failed :=
    _fetch_with_etag SUMMARY_ENDPOINT (GetRaises (ClientError "connection reset")) self in
  let null_body :=
    _fetch_with_etag SUMMARY_ENDPOINT (Response 200 None (JsonBody JNull)) self in
  result unchanged = result failed ∧ final unchanged = final failed ∧
  result unchanged = result null_body ∧ final unchanged = final null_body.
Proof. by vm_compute. Qed.

Lemma store_etag_lookup_ne self endpoint etag other :
  other ≠ endpoint →
  (store_etag self endpoint etag).(etags) !! other = self.(etags) !! other.
Proof.
  intros Hne. destruct etag as [[|a rest]|]; simpl; try done.
  by rewrite lookup_insert_ne.
Qed.

Lemma fetch_with_etag_other_validator endpoint net self other :
  other ≠ endpoint →
  (final (_fetch_with_etag endpoint net self)).(etags) !! other = self.(etags) !! other.
Proof.
  intros Hne. rewrite fetch_with_etag_run.
  destruct net as [e|status etag [payload|e]]; simpl;
    repeat case_decide; rewrite ?handled_final; simpl;
    by rewrite ?store_etag_lookup_ne.
Qed.

(** Each stanza leaves the other stanza's attributes alone. *)
Lemma check_summary_frame net self :
  let self' := final (check_summary net self) in
  self'.(processed_incident_updates) = self.(processed_incident_updates) ∧
  self'.(etags) !! INCIDENTS_ENDPOINT = self.(etags) !! INCIDENTS_ENDPOINT.
Proof.
  rewrite check_summary_run; cbv zeta.
  pose proof (fetch_with_etag_frame SUMMARY_ENDPOINT net self) as (_ & _ & Hseen).
  pose proof (fetch_with_etag_other_validator SUMMARY_ENDPOINT net self
                INCIDENTS_ENDPOINT) as Hetag.
  destruct (result _) as [data| |]; cbn [final]; auto.
  destruct (truthy data); cbn [final]; auto.
  destruct (_parse_components data) as [cs| |]; cbn [final after]; auto.
  destruct (detect_component_changes_frame cs
              (final (_fetch_with_etag SUMMARY_ENDPOINT net self)))
    as (_ & -> & ->). auto.
Qed.

Lemma check_incidents_frame net self :
  let self' := final (check_incidents net self) in
  self'.(last_known_state) = self.(last_known_state) ∧
  self'.(etags) !! SUMMARY_ENDPOINT = self.(etags) !! SUMMARY_ENDPOINT.
Proof.
  rewrite check_incidents_run; cbv zeta.
  pose proof (fetch_with_etag_frame INCIDENTS_ENDPOINT net self) as (_ & Hstate & _).
  pose proof (fetch_with_etag_other_validator INCIDENTS_ENDPOINT net self
                SUMMARY_ENDPOINT) as Hetag.
  destruct (result _) as [data| |]; cbn [final]; auto.
  destruct (truthy data); cbn [final]; auto.
  destruct (_parse_incidents data) as [incidents| |]; cbn [final after]; auto.
  destruct (detect_incident_updates_frame incidents
              (final (_fetch_with_etag INCIDENTS_ENDPOINT net self)))
    as (_ & -> & ->). auto.
Qed.

Lemma fetch_not_modified endpoint etag body self :
  _fetch_with_etag endpoint (Response 304 etag body) self
  = Run self [request self endpoint] (Return JNull).
Proof. by rewrite fetch_with_etag_run. Qed.

Lemma check_summary_not_modified etag body self :
  check_summary (Response 304 etag body) self
  = Run self [request self SUMMARY_ENDPOINT] (Return tt).
Proof. by rewrite check_summary_run, fetch_not_modified. Qed.

Lemma check_incidents_not_modified etag body self :
  check_incidents (Response 304 etag body) self
  = Run self [request self INCIDENTS_ENDPOINT] (Return tt).
Proof. by rewrite check_incidents_run, fetch_not_modified. Qed.

(** A cycle is its summary stanza, then, unless that raised, its incidents
    stanza. *)
Lemma check_status_updates_run summary_net incidents_net self :
  check_status_updates summary_net incidents_net self =
  let r := check_summary summary_net self in
  match result r with
  | Return _ => after (trace r) (check_incidents incidents_net (final r))
  | Raise e => Run (final r) (trace r) (Raise e)
  | IllTyped => Run (final r) (trace r) IllTyped
  end.
Proof. reflexivity. Qed.

(** C7, as the code has it, endpoint by endpoint.  On a 304 the fetch
    returns [None] and leaves the whole monitor as it was, and so does the
    stanza of the cycle that made the request:
    nothing is parsed or detected.  Over the whole cycle: when the summary
    endpoint answers 304 the cycle is the incidents stanza run from the
    unchanged monitor, so [last_known_state] and the summary validator end
    as they began; when the incidents endpoint answers 304 the monitor ends
    as the summary stanza left it, so [processed_incident_updates] and the
    incidents validator end as they began; when both answer 304 the cycle
    changes nothing. *)
Theorem not_modified_changes_nothing
    (endpoint : string) (etag : option string) (body : body_result)
    (other_net : http_result) (self : Monitor) :
  let unchanged := Response 304 etag body in
  _fetch_with_etag endpoint unchanged self
  = Run self [request self endpoint] (Return JNull) ∧
  check_summary unchanged self
  = Run self [request self SUMMARY_ENDPOINT] (Return tt) ∧
  check_incidents unchanged self
  = Run self [request self INCIDENTS_ENDPOINT] (Return tt) ∧
  (let r := check_status_updates unchanged other_net self in
   r = after [request self SUMMARY_ENDPOINT] (check_incidents other_net self) ∧
   (final r).(last_known_state) = self.(last_known_state) ∧
   (final r).(etags) !! SUMMARY_ENDPOINT = self.(etags) !! SUMMARY_ENDPOINT) ∧
  (let r := check_status_updates other_net unchanged self in
   final r = final (check_summary other_net self) ∧
   (final r).(processed_incident_updates) = self.(processed_incident_updates) ∧
   (final r).(etags) !! INCIDENTS_ENDPOINT = self.(etags) !! INCIDENTS_ENDPOINT) ∧
  check_status_updates unchanged unchanged self
  = Run self [request self SUMMARY_ENDPOINT; request self INCIDENTS_ENDPOINT]
      (Return tt).
Proof.
  intros unchanged.
  assert (final (check_status_updates other_net unchanged self)
          = final (check_summary other_net self)) as Hfinal.
  { rewrite check_status_updates_run; cbv zeta.
    destruct (result (check_summary other_net self)); [|done..].
    unfold unchanged. by rewrite check_incidents_not_modified. }
  assert (check_status_updates unchanged other_net self
          = after [request self SUMMARY_ENDPOINT] (check_incidents other_net self))
    as Hcycle.
  { rewrite check_status_updates_run. unfold unchanged.
    by rewrite check_summary_not_modified. }
  cbv zeta. rewrite Hfinal, Hcycle; cbn [final after].
  split_and!.
  - apply fetch_not_modified.
  - apply check_summary_not_modified.
  - apply check_incidents_not_modified.
  - done.
  - apply check_incidents_frame.
  - apply check_incidents_frame.
  - done.
  - apply check_summary_frame.
  - apply check_summary_frame.
  - rewrite check_status_updates_run. unfold unchanged.
    rewrite check_summary_not_modified; cbn [result final after trace].
    by rewrite check_incidents_not_modified.
Qed.

(** C7 fails over a whole cycle in which only one endpoint answers 304: the
    summary endpoint answers 304 and the incidents endpoint a new update,
    and the cycle adds the id of that update to
    [processed_incident_updates]; the incidents endpoint answers 304 and
    the summary endpoint a component, and the cycle stores the signature of
    that component in [last_known_state]. *)
Lemma not_modified_other_endpoint_changes :
  let self := __init__ 30 in
  let unchanged := Response 304 None (JsonBody JNull) in
  let u1 := JObj [("id", JStr "u1"); ("body", JStr "Investigating");
                  ("created_at", JStr "t1"); ("display_at", JStr "t1");
                  ("status", JStr "investigating"); ("incident_id", JStr "i1")] in
  let incidents_net :=
    Response 200 None
      (JsonBody (JObj [("incidents",
         JArr [JObj [("id", JStr "i1"); ("name", JStr "API errors");
                     ("status", JStr "investigating");
                     ("created_at", JStr "t1"); ("updated_at", JStr "t1");
                     ("impact", JStr "minor");
                     ("incident_updates", JArr [u1])]])])) in
  let summary_net :=
    Response 200 None
      (JsonBody (JObj [("components",
         JArr [JObj [("id", JStr "c1"); ("name", JStr "API");
                     ("status", JStr "operational");
                     ("updated_at", JStr "t1"); ("position", JInt 1)]])])) in
  let r := check_status_updates unchanged incidents_net self in
  let r' := check_status_updates summary_net unchanged self in
  result r = Return tt ∧
  ("u1" ∉ processed_incident_updates self) ∧
  ("u1" ∈ processed_incident_updates (final r)) ∧
  (final r).(processed_incident_updates) ≠ self.(processed_incident_updates) ∧
  result r' = Return tt ∧
  self.(last_known_state) !! "component_c1" = None ∧
  (final r').(last_known_state) !! "component_c1" = Some "API:operational" ∧
  (final r').(last_known_state) ≠ self.(last_known_state).
Proof.
  intros self unchanged u1 incidents_net summary_net r r'.
  assert ("u1" ∈ processed_incident_updates (final r)) as Hin.
  { by apply (bool_decide_unpack _). }
  assert ("u1" ∉ processed_incident_updates self) as Hout.
  { apply not_elem_of_empty. }
  split_and!; done.
Qed.

(** C8, as the code has it.  A 200 response without an [ETag] header (or
    with an empty one) leaves the stored validators as they were: the next
    request to that endpoint carries the same headers as this one did, the
    held validator in [If-None-Match] if there was one.  A 200 response
    with a non-empty [ETag] stores it, its double quotes stripped. *)
Theorem fetch_without_etag_keeps_validator
    (endpoint : string) (body : body_result) (next_net : http_result)
    (self : Monitor) :
  let r := _fetch_with_etag endpoint (Response 200 None body) self in
  final r = self ∧
  final (_fetch_with_etag endpoint (Response 200 (Some EmptyString) body) self) = self ∧
  (∃ rest, trace (_fetch_with_etag endpoint next_net (final r))
           = HttpGet (BASE_URL +:+ endpoint) (conditional_headers self endpoint) :: rest) ∧
  (∀ validator, self.(etags) !! endpoint = Some validator →
                conditional_headers (final r) endpoint = [("If-None-Match", validator)]) ∧
  (∀ a etag,
     (final (_fetch_with_etag endpoint (Response 200 (Some (String a etag)) body) self)).(etags)
       !! endpoint = Some (strip quote (String a etag))).
Proof.
  intros r.
  assert (final r = self) as Hr.
  { unfold r. rewrite fetch_with_etag_run. destruct body; [done|apply handled_final]. }
  split_and!.
  - done.
  - rewrite fetch_with_etag_run. destruct body; [done|apply handled_final].
  - rewrite Hr, fetch_with_etag_run.
    destruct next_net as [[]|status etag [payload|[]]]; simpl;
      repeat case_decide; eauto.
  - intros validator Hv. rewrite Hr. unfold conditional_headers. by rewrite Hv.
  - intros a etag. rewrite fetch_with_etag_run.
    destruct body; cbn [decide]; simpl; rewrite ?handled_final; simpl;
      by rewrite lookup_insert_eq.
Qed.

Lemma fetch_without_etag_keeps_validator_witness :
  let self := with_etags (__init__ 30) {[SUMMARY_ENDPOINT := "v1"]} in
  let r := _fetch_with_etag SUMMARY_ENDPOINT
             (Response 200 None (JsonBody (JObj [("components", JArr [])]))) self in
  final r = self ∧
  conditional_headers (final r) SUMMARY_ENDPOINT = [("If-None-Match", "v1")].
Proof.
  intros self.
  destruct (fetch_without_etag_keeps_validator SUMMARY_ENDPOINT
              (JsonBody (JObj [("components", JArr [])]))
              (Response 304 None (JsonBody JNull)) self)
    as (Hsame & _ & _ & Hheld & _).
  split; [exact Hsame|]. apply (Hheld "v1"). reflexivity.
Defined.

(** C8 fails once a validator is held: after a 200 with [ETag: "v1"], a 200
    without the header leaves v1 in place, and the request after it still
    sends [If-None-Match: v1]. *)
Lemma fetch_without_etag_still_conditional :
  let quoted := String quote ("v1" +:+ String quote EmptyString) in
  let body := JsonBody (JObj [("components", JArr [])]) in
  let first := _fetch_with_etag SUMMARY_ENDPOINT (Response 200 (Some quoted) body) (__init__ 30) in
  let second := _fetch_with_etag SUMMARY_ENDPOINT (Response 200 None body) (final first) in
  let third := _fetch_with_etag SUMMARY_ENDPOINT (Response 304 None body) (final second) in
  (final second).(etags) !! SUMMARY_ENDPOINT = Some "v1" ∧
  trace third = [HttpGet (BASE_URL +:+ SUMMARY_ENDPOINT) [("If-None-Match", "v1")]].
Proof. by vm_compute. Qed.

(** C10.  A 200 response whose body decodes to a falsy value (the empty
    object, for one) goes the way of a 304 in either stanza: nothing is
    parsed, the stanza makes the same calls and returns the same, no event
    is emitted, and [last_known_state] and [processed_incident_updates]
    stay as they were; only the validator of the response is stored.  A
    cycle in which both endpoints answer so emits nothing and leaves both
    attributes as they were. *)
Theorem falsy_body_like_unchanged
    (payload : json) (etag : option string) (self : Monitor) :
  truthy payload = false →
  let fresh := Response 200 etag (JsonBody payload) in
  let unchanged := Response 304 etag (JsonBody payload) in
  (let r := check_summary fresh self in
   r = Run (store_etag self SUMMARY_ENDPOINT etag)
         [request self SUMMARY_ENDPOINT] (Return tt) ∧
   trace r = trace (check_summary unchanged self) ∧
   result r = result (check_summary unchanged self) ∧
   (final r).(last_known_state) = self.(last_known_state) ∧
   (final r).(processed_incident_updates) = self.(processed_incident_updates)) ∧
  (let r := check_incidents fresh self in
   r = Run (store_etag self INCIDENTS_ENDPOINT etag)
         [request self INCIDENTS_ENDPOINT] (Return tt) ∧
   trace r = trace (check_incidents unchanged self) ∧
   result r = result (check_incidents unchanged self) ∧
   (final r).(last_known_state) = self.(last_known_state) ∧
   (final r).(processed_incident_updates) = self.(processed_incident_updates)) ∧
  (let r := check_status_updates fresh fresh self in
   events (trace r) = [] ∧ result r = Return tt ∧
   (final r).(last_known_state) = self.(last_known_state) ∧
   (final r).(processed_incident_updates) = self.(processed_incident_updates)).
Proof.
  intros Hfalsy fresh unchanged.
  assert (∀ s, check_summary fresh s
               = Run (store_etag s SUMMARY_ENDPOINT etag)
                     [request s SUMMARY_ENDPOINT] (Return tt)) as Hsummary.
  { intros s. unfold fresh. rewrite check_summary_fresh; cbv zeta. by rewrite Hfalsy. }
  assert (∀ s, check_incidents fresh s
               = Run (store_etag s INCIDENTS_ENDPOINT etag)
                     [request s INCIDENTS_ENDPOINT] (Return tt)) as Hincidents.
  { intros s. unfold fresh. rewrite check_incidents_fresh; cbv zeta. by rewrite Hfalsy. }
  pose proof (store_etag_frame self SUMMARY_ENDPOINT etag) as (_ & Hs & Hp).
  pose proof (store_etag_frame self INCIDENTS_ENDPOINT etag) as (_ & Hs' & Hp').
  pose proof (store_etag_frame (store_etag self SUMMARY_ENDPOINT etag)
                INCIDENTS_ENDPOINT etag) as (_ & Hs2 & Hp2).
  cbv zeta. rewrite check_status_updates_run; cbv zeta.
  unfold unchanged.
  rewrite check_summary_not_modified, check_incidents_not_modified.
  rewrite !Hsummary; cbn [result final after trace]. rewrite !Hincidents.
  cbn [result final after trace].
  split_and!; try done; congruence.
Qed.

Lemma falsy_body_like_unchanged_witness :
  let self := __init__ 30 in
  let fresh := Response 200 (Some "v2") (JsonBody (JObj [])) in
  let r := check_status_updates fresh fresh self in
  events (trace r) = [] ∧ result r = Return tt ∧
  (final r).(last_known_state) = self.(last_known_state) ∧
  (final r).(processed_incident_updates) = self.(processed_incident_updates).
Proof.
  intros self fresh.
  destruct (falsy_body_like_unchanged (JObj []) (Some "v2") self) as (_ & _ & Hcycle).
  - reflexivity.
  - exact Hcycle.
Defined.

(** ** The cycle: order of events and independence of the stanzas *)




(** What a fetch hands on as a truthy value is the decoded body of a 200
    response. *)
Lemma fetch_with_etag_delivers endpoint net self data :
  result (_fetch_with_etag endpoint net self) = Return data →
  truthy data = true →
  ∃ etag, net = Response 200 etag (JsonBody data).
Proof.
  rewrite fetch_with_etag_result.
  destruct net as [e|status etag [payload|e]]; [by destruct e; intros [= <-]|..];
    (case_decide as Hstatus; [|by intros [= <-]]).
  - intros [= <-] _. subst status. by exists etag.
  - by destruct e; intros [= <-].
Qed.

Lemma fetch_with_etag_returns_or_raises endpoint net self :
  result (_fetch_with_etag endpoint net self) ≠ IllTyped.
Proof.
  rewrite fetch_with_etag_result.
  destruct net as [e|status etag [payload|e]]; [by destruct e|..];
    case_decide; try done. by destruct e.
Qed.

(** On answers of the declared types a stanza returns or raises. *)
Lemma check_summary_typed net self :
  declared_types _parse_components net →
  result (check_summary net self) ≠ IllTyped.
Proof.
  intros Htyped. rewrite check_summary_run; cbv zeta.
  pose proof (fetch_with_etag_returns_or_raises SUMMARY_ENDPOINT net self) as Hfetch.
  destruct (result (_fetch_with_etag SUMMARY_ENDPOINT net self))
    as [data| |] eqn:Hdata; cbn [result]; [|done..].
  destruct (truthy data) eqn:Htruthy; cbn [result]; [|done].
  destruct (fetch_with_etag_delivers _ _ _ _ Hdata Htruthy) as [etag ->].
  specialize (Htyped eq_refl Htruthy).
  destruct (_parse_components data) as [cs| |]; cbn [result after]; [|done..].
  by rewrite detect_component_changes_result.
Qed.










(** * Further properties *)

(** ** The stores only grow *)

Lemma grows_refl self : grows self self.
Proof. by unfold grows. Qed.

Lemma grows_trans s1 s2 s3 : grows s1 s2 → grows s2 s3 → grows s1 s3.
Proof.
  intros (Hp1 & He1 & Hs1 & Hu1) (Hp2 & He2 & Hs2 & Hu2).
  unfold grows. split_and!; [congruence|set_solver..].
Qed.

Lemma grows_M_ret {A} (a : A) : grows_M (mret a).
Proof. intros self. apply grows_refl. Qed.

Lemma grows_M_lift {A} (o : outcome A) : grows_M (lift o).
Proof. intros self. apply grows_refl. Qed.

Lemma grows_M_get_self : grows_M get_self.
Proof. intros self. apply grows_refl. Qed.

Lemma grows_M_call e : grows_M (call e).
Proof. intros self. apply grows_refl. Qed.

Lemma grows_M_bind {A B} (m : M A) (f : A → M B) :
  grows_M m → (∀ a, grows_M (f a)) → grows_M (m ≫= f).
Proof.
  intros Hm Hf self. rewrite bind_run. specialize (Hm self).
  destruct (result (m self)); simpl; try done.
  eapply grows_trans; [done|apply Hf].
Qed.

Lemma grows_M_try_except {A} (m : M A) handler :
  grows_M m → (∀ e h, handler e = Some h → grows_M h) →
  grows_M (try_except m handler).
Proof.
  intros Hm Hh self. unfold try_except. specialize (Hm self).
  destruct (result (m self)) as [| e |]; try done.
  destruct (handler e) as [h|] eqn:He; [|done]. simpl.
  eapply grows_trans; [done|]. by eapply Hh.
Qed.

Lemma grows_M_if {A} (b : bool) (m1 m2 : M A) :
  grows_M m1 → grows_M m2 → grows_M (if b then m1 else m2).
Proof. by destruct b. Qed.

Lemma grows_M_for_each {A} (xs : list A) body :
  (∀ x, grows_M (body x)) → grows_M (for_each xs body).
Proof.
  intros Hbody. induction xs as [|x xs IH]; [apply grows_M_ret|].
  simpl. apply grows_M_bind; auto.
Qed.

Lemma grows_M_set_etag endpoint etag : grows_M (set_etag endpoint etag).
Proof.
  intros self. unfold grows; simpl. rewrite dom_insert_L.
  split_and!; [done|set_solver|done..].
Qed.

Lemma grows_M_set_last_known_state key state :
  grows_M (set_last_known_state key state).
Proof.
  intros self. unfold grows; simpl. rewrite dom_insert_L.
  split_and!; [done|done|set_solver|done].
Qed.

Lemma grows_M_add_processed_incident_update update_id :
  grows_M (add_processed_incident_update update_id).
Proof. intros self. unfold grows; simpl. split_and!; [done..|set_solver]. Qed.

Create HintDb grows.
#[local] Hint Resolve grows_M_ret grows_M_lift grows_M_get_self grows_M_call
  grows_M_bind grows_M_if grows_M_for_each grows_M_set_etag
  grows_M_set_last_known_state grows_M_add_processed_incident_update : grows.

Lemma grows_M_fetch_with_etag endpoint net : grows_M (_fetch_with_etag endpoint net).
Proof.
  unfold _fetch_with_etag.
  apply grows_M_bind; [auto with grows|intros self].
  apply grows_M_try_except.
  - apply grows_M_bind; [auto with grows|intros _].
    destruct net as [e|status etag [payload|e]]; [by unfold raise; auto with grows|..];
      repeat case_decide; auto with grows;
      (apply grows_M_bind; [|intros _; unfold response_json, raise; auto with grows]);
      destruct etag as [[|a rest]|]; auto with grows.
  - intros [] h [= <-]; auto with grows.
Qed.

Lemma grows_M_detect_component_changes cs : grows_M (_detect_component_changes cs).
Proof.
  apply grows_M_for_each. intros c.
  apply grows_M_bind; [auto with grows|intros self].
  destruct (_ !! _); [case_decide|]; unfold _log_component_event; auto with grows.
Qed.

Lemma grows_M_detect_incident_updates incidents :
  grows_M (_detect_incident_updates incidents).
Proof.
  apply grows_M_for_each. intros i. apply grows_M_for_each. intros u.
  apply grows_M_bind; [auto with grows|intros self].
  case_decide; unfold _log_incident_event; auto with grows.
Qed.

#[local] Hint Resolve grows_M_fetch_with_etag grows_M_detect_component_changes
  grows_M_detect_incident_updates : grows.

Lemma grows_M_check_status_updates summary_net incidents_net :
  grows_M (check_status_updates summary_net incidents_net).
Proof.
  unfold check_status_updates, check_summary, check_incidents.
  auto 10 with grows.
Qed.

Lemma grows_M_start_monitoring cycles : grows_M (start_monitoring cycles).
Proof.
  unfold start_monitoring.
  repeat (apply grows_M_bind; [auto with grows|intros ?]).
  apply grows_M_try_except; [|intros e h [= <-]; auto with grows].
  induction cycles as [|[summary_net incidents_net] later IH]; simpl;
    auto 10 using grows_M_check_status_updates with grows.
Qed.

(** X1.  Nothing is ever forgotten while the monitor runs: over any run of
    [start_monitoring], whatever the network answers, the polling interval
    is the same at the end, every endpoint that had a validator still has
    one, every component key stored is still stored, and every update id
    seen is still seen.  The same holds over any single cycle. *)
Theorem stores_only_grow
    (cycles : list (http_result * http_result))
    (summary_net incidents_net : http_result) (self : Monitor) :
  (let self' := final (start_monitoring cycles self) in
   self'.(poll_interval) = self.(poll_interval) ∧
   dom self.(etags) ⊆ dom self'.(etags) ∧
   dom self.(last_known_state) ⊆ dom self'.(last_known_state) ∧
   self.(processed_incident_updates) ⊆ self'.(processed_incident_updates)) ∧
  (let self' := final (check_status_updates summary_net incidents_net self) in
   self'.(poll_interval) = self.(poll_interval) ∧
   dom self.(etags) ⊆ dom self'.(etags) ∧
   dom self.(last_known_state) ⊆ dom self'.(last_known_state) ∧
   self.(processed_incident_updates) ⊆ self'.(processed_incident_updates)).
Proof.
  split; [apply grows_M_start_monitoring|apply grows_M_check_status_updates].
Qed.

(** ** What a method calls *)

Section calls.
Context (P : effect → Prop).

Lemma calls_M_ret {A} (a : A) : calls_M P (mret a).
Proof. intros self. constructor. Qed.

Lemma calls_M_lift {A} (o : outcome A) : calls_M P (lift o).
Proof. intros self. constructor. Qed.

Lemma calls_M_get_self : calls_M P get_self.
Proof. intros self. constructor. Qed.

Lemma calls_M_set_self self' : calls_M P (set_self self').
Proof. intros self. constructor. Qed.

Lemma calls_M_call e : P e → calls_M P (call e).
Proof. intros He self. by repeat constructor. Qed.

Lemma calls_M_bind {A B} (m : M A) (f : A → M B) :
  calls_M P m → (∀ a, calls_M P (f a)) → calls_M P (m ≫= f).
Proof.
  intros Hm Hf self. rewrite bind_run. specialize (Hm self).
  destruct (result (m self)); simpl; try done.
  apply Forall_app. split; [done|apply Hf].
Qed.

Lemma calls_M_try_except {A} (m : M A) handler :
  calls_M P m → (∀ e h, handler e = Some h → calls_M P h) →
  calls_M P (try_except m handler).
Proof.
  intros Hm Hh self. unfold try_except. specialize (Hm self).
  destruct (result (m self)) as [| e |]; try done.
  destruct (handler e) as [h|] eqn:He; [|done]. simpl.
  apply Forall_app. split; [done|]. by eapply Hh.
Qed.

Lemma calls_M_if {A} (b : bool) (m1 m2 : M A) :
  calls_M P m1 → calls_M P m2 → calls_M P (if b then m1 else m2).
Proof. by destruct b. Qed.

Lemma calls_M_for_each {A} (xs : list A) body :
  (∀ x, calls_M P (body x)) → calls_M P (for_each xs body).
Proof.
  intros Hbody. induction xs as [|x xs IH]; [apply calls_M_ret|].
  simpl. apply calls_M_bind; auto.
Qed.
End calls.

Create HintDb calls.
#[local] Hint Resolve calls_M_ret calls_M_lift calls_M_get_self calls_M_set_self
  calls_M_call calls_M_bind calls_M_if calls_M_for_each : calls.
#[local] Hint Extern 1 (in_loop _) => exact I : calls.
#[local] Hint Extern 1 (in_cycle _) => exact I : calls.

Lemma calls_M_check_status_updates summary_net incidents_net :
  calls_M in_cycle (check_status_updates summary_net incidents_net).
Proof.
  assert (∀ ep net, calls_M in_cycle (_fetch_with_etag ep net)) as Hfetch.
  { intros ep net self. rewrite fetch_with_etag_run.
    destruct net as [[]|status etag [payload|[]]]; simpl;
      repeat case_decide; by repeat constructor. }
  assert (∀ cs, calls_M in_cycle (_detect_component_changes cs)) as Hcs.
  { intros cs. apply calls_M_for_each. intros c.
    apply calls_M_bind; [auto with calls|intros self].
    destruct (_ !! _); [case_decide|];
      unfold _log_component_event, set_last_known_state; auto 10 with calls. }
  assert (∀ incidents, calls_M in_cycle (_detect_incident_updates incidents)) as His.
  { intros incidents. do 2 (apply calls_M_for_each; intros ?).
    apply calls_M_bind; [auto with calls|intros self].
    case_decide; unfold _log_incident_event, add_processed_incident_update;
      auto 10 with calls. }
  unfold check_status_updates, check_summary, check_incidents.
  auto 10 with calls.
Qed.

Lemma in_cycle_in_loop e : in_cycle e → in_loop e.
Proof. by destruct e. Qed.

Lemma calls_M_monitoring_loop cycles : calls_M in_loop (monitoring_loop cycles).
Proof.
  assert (∀ summary_net incidents_net,
            calls_M in_loop (check_status_updates summary_net incidents_net))
    as Hcycle.
  { intros summary_net incidents_net self.
    eapply Forall_impl; [apply calls_M_check_status_updates|].
    apply in_cycle_in_loop. }
  induction cycles as [|[summary_net incidents_net] later IH]; simpl;
    auto 10 with calls.
Qed.

(** The loop and its [except], spelled out. *)
Lemma start_monitoring_run cycles self :
  start_monitoring cycles self =
  let r := monitoring_loop cycles self in
  after [LogStarting self.(poll_interval); PrintBanner]
    match result r with
    | Raise e => Run (final r) (trace r ++ [LogStopped e]) (Return tt)
    | _ => r
    end.
Proof.
  unfold start_monitoring. cbv [mbind M_bind get_self call try_except]; simpl.
  by destruct (result (monitoring_loop cycles self)).
Qed.

(** X2.  No exception of a cycle leaves [start_monitoring]: it never ends
    by raising.  The line that reports the exception that ended the loop
    is logged at most once, and it is then the last call made: nothing is
    requested, emitted or slept after it. *)
Theorem start_monitoring_never_raises
    (cycles : list (http_result * http_result)) (self : Monitor) :
  let r := start_monitoring cycles self in
  (∀ e, result r ≠ Raise e) ∧
  (∀ e, LogStopped e ∈ trace r →
        ∃ before, trace r = before ++ [LogStopped e] ∧
                  ∀ e', LogStopped e' ∉ before).
Proof.
  cbv zeta. rewrite start_monitoring_run; cbv zeta.
  pose proof (calls_M_monitoring_loop cycles self) as Hloop.
  assert (∀ e', LogStopped e' ∉ trace (monitoring_loop cycles self)) as Hnone.
  { intros e' Hin. by apply (proj1 (Forall_forall _ _) Hloop) in Hin. }
  assert (∀ e' (tr : list effect),
            LogStopped e' ∉ tr → LogStopped e' ∉ LogStarting self.(poll_interval) :: PrintBanner :: tr)
    as Hpre.
  { intros e' tr Htr Hin. by repeat (apply elem_of_cons in Hin as [?|Hin]). }
  destruct (result (monitoring_loop cycles self)) as [[]|e0|] eqn:Hres;
    cbn [after trace result final app].
  - split; [intros e; by rewrite Hres|]. intros e Hin. by apply Hpre in Hin.
  - split; [done|]. intros e Hin.
    exists (LogStarting self.(poll_interval) :: PrintBanner
            :: trace (monitoring_loop cycles self)).
    split; [|by auto].
    do 2 (apply elem_of_cons in Hin as [?|Hin]; [done|]).
    apply elem_of_app in Hin as [Hin|Hin]; [by apply Hnone in Hin|].
    apply list_elem_of_singleton in Hin. by simplify_eq.
  - split; [intros e; by rewrite Hres|]. intros e Hin. by apply Hpre in Hin.
Qed.

(** ** The requests of a cycle *)

Lemma requests_app t1 t2 : requests (t1 ++ t2) = requests t1 ++ requests t2.
Proof. apply List.filter_app. Qed.

Lemma requests_events tr : requests (events tr) = [].
Proof. induction tr as [|[] tr IH]; simpl; done. Qed.

Lemma requests_fetch_with_etag endpoint net self :
  requests (trace (_fetch_with_etag endpoint net self)) = [request self endpoint].
Proof.
  rewrite fetch_with_etag_run.
  destruct net as [[]|status etag [payload|[]]]; simpl; repeat case_decide; done.
Qed.

Lemma requests_detect_component_changes cs self :
  requests (trace (_detect_component_changes cs self)) = [].
Proof.
  destruct (detect_component_changes_trace cs self) as (evs & -> & _).
  by rewrite <- events_component_events, requests_events.
Qed.

Lemma requests_detect_incident_updates incidents self :
  requests (trace (_detect_incident_updates incidents self)) = [].
Proof.
  destruct (detect_incident_updates_trace incidents self) as (evs & -> & _).
  by rewrite <- events_incident_events, requests_events.
Qed.

Lemma requests_check_summary net self :
  requests (trace (check_summary net self)) = [request self SUMMARY_ENDPOINT].
Proof.
  rewrite check_summary_run; cbv zeta.
  pose proof (requests_fetch_with_etag SUMMARY_ENDPOINT net self) as Hreq.
  destruct (result _) as [data| |]; cbn [trace]; try done.
  destruct (truthy data); cbn [trace]; try done.
  destruct (_parse_components data) as [cs| |]; cbn [trace after]; try done.
  by rewrite requests_app, Hreq, requests_detect_component_changes.
Qed.

Lemma requests_check_incidents net self :
  requests (trace (check_incidents net self)) = [request self INCIDENTS_ENDPOINT].
Proof.
  rewrite check_incidents_run; cbv zeta.
  pose proof (requests_fetch_with_etag INCIDENTS_ENDPOINT net self) as Hreq.
  destruct (result _) as [data| |]; cbn [trace]; try done.
  destruct (truthy data); cbn [trace]; try done.
  destruct (_parse_incidents data) as [incidents| |]; cbn [trace after]; try done.
  by rewrite requests_app, Hreq, requests_detect_incident_updates.
Qed.

(** X3.  A cycle whose summary answer is of the declared types makes at
    most two requests: always the summary request, first, and then the
    incidents request unless the summary stanza ended by an exception,
    which is then the exception of the cycle.  Both requests carry the
    validators held when the cycle began (what the summary stanza stores
    does not reach the incidents request), so a monitor that holds none, as
    a new one does, sends both without [If-None-Match]. *)
Theorem check_status_updates_requests
    (summary_net incidents_net : http_result) (self : Monitor) :
  declared_types _parse_components summary_net →
  let r := check_status_updates summary_net incidents_net self in
  ((result (check_summary summary_net self) = Return tt ∧
    requests (trace r)
    = [request self SUMMARY_ENDPOINT; request self INCIDENTS_ENDPOINT])
   ∨ (∃ e, result (check_summary summary_net self) = Raise e ∧
           result r = Raise e ∧
           requests (trace r) = [request self SUMMARY_ENDPOINT])) ∧
  (∀ interval endpoint,
     request (__init__ interval) endpoint = HttpGet (BASE_URL +:+ endpoint) []).
Proof.
  intros Htyped r. split; [|done].
  unfold r. rewrite check_status_updates_run; cbv zeta.
  pose proof (requests_check_summary summary_net self) as Hsummary.
  pose proof (check_summary_typed _ self Htyped) as Hs.
  destruct (result (check_summary summary_net self)) as [[]|e|];
    cbn [trace after result]; [left|right|done].
  - split; [done|].
    rewrite requests_app, Hsummary, requests_check_incidents. simpl. do 2 f_equal.
    unfold request, conditional_headers.
    by destruct (check_summary_frame summary_net self) as (_ & ->).
  - by exists e.
Qed.

Lemma check_status_updates_requests_witness :
  let api := ComponentStatus.Make "c1" "API" "operational" "t1" 1 in
  let summary_net :=
    Response 200 (Some "v1")
      (JsonBody (JObj [("components", JArr [component_json api])])) in
  let incidents_net := Response 304 None (JsonBody JNull) in
  let self := __init__ 30 in
  let r := check_status_updates summary_net incidents_net self in
  requests (trace r)
  = [HttpGet (BASE_URL +:+ SUMMARY_ENDPOINT) [];
     HttpGet (BASE_URL +:+ INCIDENTS_ENDPOINT) []].
Proof.
  intros api summary_net incidents_net self r.
  destruct (check_status_updates_requests summary_net incidents_net self)
    as [[[_ Hrequests]|(e & Hraise & _)] _].
  - intros _ _. vm_compute. discriminate.
  - exact Hrequests.
  - vm_compute in Hraise. discriminate.
Defined.

(** ** Incidents: every new update is announced *)

(** X4.  A pass of [_detect_incident_updates] announces every update of the
    feed that was not seen before: each unseen id of the feed is among the
    ids of the events of that pass; after the pass every id of the feed is
    in the seen-set. *)
Theorem detect_incident_updates_complete
    (incidents : list Incident.t) (self : Monitor) :
  let r := _detect_incident_updates incidents self in
  (∀ incident update,
     incident ∈ incidents → update ∈ incident.(Incident.updates) →
     update.(IncidentUpdate.id) ∉ self.(processed_incident_updates) →
     update.(IncidentUpdate.id) ∈ emitted_update_ids (trace r)) ∧
  (∀ incident update,
     incident ∈ incidents → update ∈ incident.(Incident.updates) →
     update.(IncidentUpdate.id) ∈ (final r).(processed_incident_updates)).
Proof.
  intros r.
  assert (∀ incident update,
            incident ∈ incidents → update ∈ incident.(Incident.updates) →
            update.(IncidentUpdate.id) ∈ (final r).(processed_incident_updates))
    as Hseen.
  { intros incident update Hi Hu. unfold r.
    rewrite detect_incident_updates_seen.
    apply elem_of_union_r, elem_of_list_to_set, list_elem_of_fmap.
    exists (incident, update). split; [done|].
    unfold visits. apply list_elem_of_bind. exists incident. split; [|done].
    apply list_elem_of_fmap. by exists update. }
  split; [|done]. intros incident update Hi Hu Hnew.
  specialize (Hseen incident update Hi Hu).
  destruct (dedup_M_detect_incident_updates incidents self) as (_ & _ & Hgain).
  fold r in Hgain. rewrite Hgain in Hseen.
  apply elem_of_union in Hseen as [?|Hin]; [done|].
  by apply elem_of_list_to_set in Hin.
Qed.

Lemma detect_incident_updates_complete_witness :
  let u1 := IncidentUpdate.Make "u1" "Investigating" "t1" "t1" "investigating" "i1" in
  let u2 := IncidentUpdate.Make "u2" "Identified" "t2" "t2" "identified" "i1" in
  let incident := Incident.Make "i1" "API errors" "identified" "t1" "t2" None "minor" [u1; u2] in
  let self := mark (__init__ 30) u1 in
  "u2" ∈ emitted_update_ids (trace (_detect_incident_updates [incident] self)).
Proof.
  intros u1 u2 incident self.
  destruct (detect_incident_updates_complete [incident] self) as (Hnew & _).
  apply (Hnew incident u2).
  - apply list_elem_of_singleton. reflexivity.
  - right. left.
  - vm_compute. set_solver.
Defined.

(** ** Components: what is absent, and what comes twice *)

Lemma detect_component_changes_app before rest self :
  _detect_component_changes (before ++ rest) self =
  let r := _detect_component_changes before self in
  after (trace r) (_detect_component_changes rest (final r)).
Proof.
  revert self; induction before as [|c before IH]; intros self.
  { simpl. by rewrite after_nil. }
  rewrite <- app_comm_cons, !detect_component_changes_cons.
  destruct (last_known_state self !! state_key_of c); [case_decide|];
    rewrite IH; cbv zeta; by rewrite ?after_after.
Qed.

(** Whatever was stored under its key, a component's signature is what is
    stored there once it has been looked at. *)
Lemma detect_component_changes_head c rest self :
  ∃ self', final (_detect_component_changes (c :: rest) self)
           = final (_detect_component_changes rest self') ∧
           self'.(last_known_state) !! state_key_of c = Some (current_state_of c).
Proof.
  rewrite detect_component_changes_cons.
  destruct (last_known_state self !! state_key_of c) as [old|] eqn:Hold;
    [case_decide as Hne|].
  - exists (remember self c). split; [done|apply remember_lookup].
  - exists self. split; [done|]. rewrite Hold. f_equal.
    by destruct (decide (old = current_state_of c)).
  - exists (remember self c). split; [done|apply remember_lookup].
Qed.

(** X5.  A component that is absent from a payload is not tracked as gone:
    a pass emits events only for components of its payload, and whatever is
    stored under the key of any other component is exactly what was stored
    before. *)
Theorem absent_component_untouched
    (components : list ComponentStatus.t) (self : Monitor) :
  let r := _detect_component_changes components self in
  (∀ c event_type, ComponentEvent c event_type ∈ trace r → c ∈ components) ∧
  (∀ c, c.(ComponentStatus.id) ∉ ComponentStatus.id <$> components →
        (final r).(last_known_state) !! state_key_of c
        = self.(last_known_state) !! state_key_of c).
Proof.
  intros r. split.
  - intros c event_type Hin. unfold r in Hin.
    destruct (detect_component_changes_trace components self) as (evs & Htr & Hsub).
    rewrite Htr in Hin. apply list_elem_of_fmap in Hin as ([c' t] & [= -> ->] & Hin).
    eapply elem_of_sublist; [|done].
    apply list_elem_of_fmap. by exists (c', t).
  - intros c Hc. apply detect_component_changes_other_key.
    by apply component_ids_keys.
Qed.

Lemma absent_component_untouched_witness :
  let api := ComponentStatus.Make "c1" "API" "operational" "t1" 1 in
  let chat := ComponentStatus.Make "c2" "ChatGPT" "operational" "t1" 2 in
  let self := final (_detect_component_changes [api; chat] (__init__ 30)) in
  let r := _detect_component_changes [api] self in
  (final r).(last_known_state) !! state_key_of chat
  = self.(last_known_state) !! state_key_of chat.
Proof.
  intros api chat self r.
  destruct (absent_component_untouched [api] self) as (_ & Hkept).
  apply (Hkept chat). vm_compute. set_solver.
Defined.

(** X6.  When a payload lists an id more than once, the last entry wins:
    after the pass, the signature stored for a component of the payload is
    that of the last entry with its id. *)
Theorem last_entry_wins
    (before later : list ComponentStatus.t) (c : ComponentStatus.t)
    (self : Monitor) :
  c.(ComponentStatus.id) ∉ ComponentStatus.id <$> later →
  (final (_detect_component_changes (before ++ c :: later) self)).(last_known_state)
    !! state_key_of c = Some (current_state_of c).
Proof.
  intros Hlast. rewrite detect_component_changes_app; cbv zeta; cbn [final after].
  destruct (detect_component_changes_head c later
              (final (_detect_component_changes before self)))
    as (self' & -> & Hstored).
  rewrite detect_component_changes_other_key; [done|].
  by apply component_ids_keys.
Qed.

Lemma last_entry_wins_witness :
  let up := ComponentStatus.Make "c1" "API" "operational" "t1" 1 in
  let down := ComponentStatus.Make "c1" "API" "major_outage" "t2" 1 in
  (final (_detect_component_changes ([up] ++ down :: []) (__init__ 30))).(last_known_state)
    !! state_key_of down = Some (current_state_of down).
Proof.
  intros up down. apply (last_entry_wins [up] [] down (__init__ 30)).
  apply not_elem_of_nil.
Defined.

(** ** The parsers on well-formed and ill-formed feeds *)

Lemma mapM_return {A B} (f : A → outcome B) (g : B → A) xs :
  (∀ x, f (g x) = Return x) → mapM f (g <$> xs) = Return xs.
Proof.
  intros Hfg. induction xs as [|x xs IH]; [done|].
  rewrite fmap_cons. change (mapM f (g x :: (g <$> xs)))
    with (y ← f (g x); k ← mapM f (g <$> xs); mret (y :: k)).
  by rewrite Hfg, IH.
Qed.

Lemma mapM_Forall2 {A B} (f : A → outcome B) items xs :
  mapM f items = Return xs → Forall2 (λ item x, f item = Return x) items xs.
Proof.
  revert xs; induction items as [|item items IH]; intros xs; simpl.
  { intros [= <-]. constructor. }
  destruct (f item) as [x| |] eqn:Hitem; simpl; try done.
  destruct (mapM f items) as [xs'| |]; simpl; try done.
  intros [= <-]. constructor; auto.
Qed.

Lemma mapM_fmap {A B C} (f : A → outcome B) (g : C → A) (h : C → B) xs :
  (∀ x, f (g x) = Return (h x)) → mapM f (g <$> xs) = Return (h <$> xs).
Proof.
  intros Hfg. induction xs as [|x xs IH]; [done|].
  rewrite !fmap_cons. change (mapM f (g x :: (g <$> xs)))
    with (y ← f (g x); k ← mapM f (g <$> xs); mret (y :: k)).
  by rewrite Hfg, IH.
Qed.

Lemma mapM_built_fmap {A} (xs : list A) :
  mapM (λ built : outcome A, built) (Return <$> xs) = Return xs.
Proof. by apply (mapM_return (λ built, built) Return). Qed.

Lemma read_component_json c : read_component (component_json c) = Return (Return c).
Proof. by destruct c. Qed.

Lemma read_update_json u : read_update (update_json u) = Return (Return u).
Proof. by destruct u. Qed.

Lemma read_incident_json i : read_incident (incident_json i) = Return (Return i).
Proof.
  destruct i as [id name status created updated resolved impact updates].
  unfold read_incident, incident_json; simpl.
  rewrite (mapM_fmap _ _ Return _ read_update_json); simpl.
  unfold build_incident; simpl.
  destruct resolved; simpl; by rewrite mapM_built_fmap.
Qed.

Lemma parse_component_json c : parse_component (component_json c) = Return c.
Proof. unfold parse_component. by rewrite read_component_json. Qed.

(** X7.  Parsing gives back what a feed holds: a summary whose "components"
    is the list of the records of some components parses to exactly those
    components, in order, and an incidents payload likewise to its
    incidents with their updates, a missing resolution time being [null];
    whatever else the payload holds beside the feed is not looked at. *)
Theorem parse_feed_round_trip
    (members : list (string * json))
    (components : list ComponentStatus.t) (incidents : list Incident.t) :
  (assoc "components" members = Some (JArr (component_json <$> components)) →
   _parse_components (JObj members) = Return components) ∧
  (assoc "incidents" members = Some (JArr (incident_json <$> incidents)) →
   _parse_incidents (JObj members) = Return incidents).
Proof.
  split; intros Hfeed.
  - unfold _parse_components; simpl. rewrite Hfeed; simpl.
    rewrite (mapM_fmap _ _ Return _ read_component_json); simpl.
    apply mapM_built_fmap.
  - unfold _parse_incidents; simpl. rewrite Hfeed; simpl.
    rewrite (mapM_fmap _ _ Return _ read_incident_json); simpl.
    apply mapM_built_fmap.
Qed.

Lemma parse_feed_round_trip_witness :
  let api := ComponentStatus.Make "c1" "API" "operational" "t1" 1 in
  let u1 := IncidentUpdate.Make "u1" "Investigating" "t1" "t1" "investigating" "i1" in
  let incident := Incident.Make "i1" "API errors" "resolved" "t1" "t2" (Some "t2") "minor" [u1] in
  let members := [("page", JObj [("id", JStr "p1")]);
                  ("components", JArr [component_json api]);
                  ("incidents", JArr [incident_json incident])] in
  _parse_components (JObj members) = Return [api] ∧
  _parse_incidents (JObj members) = Return [incident].
Proof.
  intros api u1 incident members.
  destruct (parse_feed_round_trip members [api] [incident]) as (Hc & Hi).
  split; [apply Hc|apply Hi]; reflexivity.
Defined.

(** X8.  Only the fields that are read matter: two component records that
    agree on the five required keys parse alike, whatever else they hold,
    and so do two update records that agree on their six keys, and two
    incident records that agree on their six required keys, on
    "resolved_at" and on "incident_updates". *)
Theorem parsers_ignore_other_fields (members members' : list (string * json)) :
  ((∀ key, key ∈ required_component_fields → assoc key members = assoc key members') →
   parse_component (JObj members) = parse_component (JObj members')) ∧
  ((∀ key, key ∈ required_update_fields → assoc key members = assoc key members') →
   parse_update (JObj members) = parse_update (JObj members')) ∧
  ((∀ key, key ∈ "resolved_at" :: "incident_updates" :: required_incident_fields →
           assoc key members = assoc key members') →
   parse_incident (JObj members) = parse_incident (JObj members')).
Proof.
  split_and!; intros Hsame.
  - unfold parse_component, read_component, py_getitem.
    by rewrite !Hsame by (unfold required_component_fields; set_solver).
  - unfold parse_update, read_update, py_getitem.
    by rewrite !Hsame by (unfold required_update_fields; set_solver).
  - unfold parse_incident, read_incident, py_getitem, py_get.
    by rewrite !Hsame by (unfold required_incident_fields; set_solver).
Qed.

Lemma parsers_ignore_other_fields_witness :
  let api := ComponentStatus.Make "c1" "API" "operational" "t1" 1 in
  let members := [("id", JStr "c1"); ("name", JStr "API");
                  ("status", JStr "operational"); ("updated_at", JStr "t1");
                  ("position", JInt 1)] in
  let members' := ("group", JBool false) :: members ++ [("description", JNull)] in
  parse_component (JObj members) = parse_component (JObj members').
Proof.
  intros api members members'.
  destruct (parsers_ignore_other_fields members members') as (Hc & _).
  apply Hc. intros key Hkey.
  repeat (apply elem_of_cons in Hkey as [->|Hkey]; [reflexivity|]).
  by apply elem_of_nil in Hkey.
Defined.

(** X9.  A parser either delivers one record for every entry of the feed,
    in feed order, or delivers nothing: when [_parse_components] returns,
    its result and the entries of the feed correspond one to one. *)
Theorem parse_components_all_or_nothing
    (members : list (string * json)) (items : list json)
    (components : list ComponentStatus.t) :
  assoc "components" members = Some (JArr items) →
  _parse_components (JObj members) = Return components →
  Forall2 (λ item c, parse_component item = Return c) items components ∧
  length components = length items.
Proof.
  intros Hfeed. unfold _parse_components; simpl. rewrite Hfeed; simpl.
  destruct (mapM read_component items) as [built| |] eqn:Hread; simpl; [|done..].
  intros Htyped%mapM_Forall2. apply mapM_Forall2 in Hread.
  assert (Forall2 (λ item c, parse_component item = Return c) items components)
    as Hall.
  { clear Hfeed. revert components Htyped.
    induction Hread as [|item b items built Hitem _ IH]; intros components Htyped.
    - inversion Htyped. constructor.
    - inversion Htyped as [|? c ? components' Hb Hrest]; subst.
      constructor; [|by apply IH].
      unfold parse_component. by rewrite Hitem. }
  split; [done|]. symmetry. by eapply Forall2_length.
Qed.

Lemma parse_components_all_or_nothing_witness :
  let api := ComponentStatus.Make "c1" "API" "operational" "t1" 1 in
  let members := [("components", JArr [component_json api])] in
  Forall2 (λ item c, parse_component item = Return c) [component_json api] [api] ∧
  length [api] = length [component_json api].
Proof.
  intros api members.
  apply (parse_components_all_or_nothing members [component_json api] [api]);
    reflexivity.
Defined.

(** X10.  A payload without the feed is taken for an empty feed: when the
    summary object has no "components" key, or has the empty list there,
    [_parse_components] returns no component and the summary stanza ends
    normally after its request, with no event and the stored signatures
    as they were. *)
Theorem absent_feed_is_empty
    (members : list (string * json)) (etag : option string) (self : Monitor) :
  assoc "components" members = None ∨ assoc "components" members = Some (JArr []) →
  _parse_components (JObj members) = Return [] ∧
  (let r := check_summary (Response 200 etag (JsonBody (JObj members))) self in
   trace r = [request self SUMMARY_ENDPOINT] ∧ result r = Return tt ∧
   (final r).(last_known_state) = self.(last_known_state)).
Proof.
  intros Hfeed.
  assert (_parse_components (JObj members) = Return []) as Hparse.
  { unfold _parse_components; simpl. by destruct Hfeed as [-> | ->]. }
  split; [done|]. cbv zeta. rewrite check_summary_fresh; cbv zeta.
  pose proof (store_etag_frame self SUMMARY_ENDPOINT etag) as (_ & Hstate & _).
  destruct (truthy (JObj members)); [rewrite Hparse|]; done.
Qed.

Lemma absent_feed_is_empty_witness :
  let members := [("page", JObj [("id", JStr "p1")])] in
  _parse_components (JObj members) = Return [] ∧
  (let r := check_summary (Response 200 None (JsonBody (JObj members))) (__init__ 30) in
   trace r = [request (__init__ 30) SUMMARY_ENDPOINT] ∧ result r = Return tt ∧
   (final r).(last_known_state) = (__init__ 30).(last_known_state)).
Proof.
  intros members.
  apply (absent_feed_is_empty members None (__init__ 30)). left. reflexivity.
Defined.

Lemma read_component_not_object record :
  (∀ members, record ≠ JObj members) → read_component record = Raise TypeError.
Proof. intros Hrecord. destruct record; try done. by destruct (Hrecord members). Qed.

(** X11.  A body of the wrong shape is an exception, not an empty result.
    A truthy payload that is not an object makes [_parse_components] raise
    [AttributeError], which leaves [check_status_updates] after the summary
    request alone; a "components" value that is null, a boolean or a number
    raises [TypeError]; and so does a feed in which an entry that is not an
    object follows complete records (records with the five required keys,
    whatever the values). *)
Theorem wrong_shape_raises
    (payload : json) (etag : option string)
    (incidents_net : http_result) (self : Monitor) :
  truthy payload = true →
  (∀ members, payload ≠ JObj members) →
  _parse_components payload = Raise AttributeError ∧
  check_status_updates (Response 200 etag (JsonBody payload)) incidents_net self
  = Run (store_etag self SUMMARY_ENDPOINT etag) [request self SUMMARY_ENDPOINT]
      (Raise AttributeError) ∧
  (∀ members feed,
     assoc "components" members = Some feed →
     (∀ items, feed ≠ JArr items) → (∀ m, feed ≠ JObj m) → (∀ s, feed ≠ JStr s) →
     _parse_components (JObj members) = Raise TypeError) ∧
  (∀ members good bad rest,
     assoc "components" members = Some (JArr (good ++ bad :: rest)) →
     Forall (complete required_component_fields) good →
     (∀ m, bad ≠ JObj m) →
     _parse_components (JObj members) = Raise TypeError).
Proof.
  intros Htruthy Hshape.
  assert (_parse_components payload = Raise AttributeError) as Hparse.
  { destruct payload; try done. by destruct (Hshape members). }
  split_and!.
  - done.
  - rewrite (check_status_updates_summary_raises _ _ _ AttributeError);
      rewrite check_summary_fresh; cbv zeta; by rewrite Htruthy, Hparse.
  - intros members feed Hfeed Hlist Hdict Hstr.
    unfold _parse_components; simpl. rewrite Hfeed; simpl.
    destruct feed; try done.
    + by destruct (Hstr s).
    + by destruct (Hlist items).
    + by destruct (Hdict members0).
  - intros members good bad rest Hfeed Hgood Hbad.
    eapply parse_components_raise; [done..|]. by apply read_component_not_object.
Qed.

Lemma wrong_shape_raises_witness :
  let payload := JArr [JStr "maintenance"] in
  let untyped := JObj [("id", JInt 5); ("name", JStr "API");
                       ("status", JStr "operational");
                       ("updated_at", JStr "t1"); ("position", JInt 1)] in
  let members := [("components", JArr [untyped; JStr "c2"])] in
  _parse_components payload = Raise AttributeError ∧
  check_status_updates (Response 200 None (JsonBody payload))
    (Response 304 None (JsonBody JNull)) (__init__ 30)
  = Run (__init__ 30) [request (__init__ 30) SUMMARY_ENDPOINT] (Raise AttributeError) ∧
  _parse_components (JObj members) = Raise TypeError.
Proof.
  intros payload untyped members.
  destruct (wrong_shape_raises payload None (Response 304 None (JsonBody JNull))
              (__init__ 30)) as (Hparse & Hcycle & _ & Hentry).
  - reflexivity.
  - intros m. discriminate.
  - split_and!; [exact Hparse|exact Hcycle|].
    apply (Hentry members [untyped] (JStr "c2") []).
    + reflexivity.
    + constructor; [|constructor]. eexists. split; reflexivity.
    + intros m. discriminate.
Defined.

(** ** Validators: when they are stored and how they are sent *)

Lemma fetch_with_etag_fresh endpoint etag body self :
  _fetch_with_etag endpoint (Response 200 etag body) self =
  match body with
  | JsonBody payload =>
      Run (store_etag self endpoint etag) [request self endpoint] (Return payload)
  | JsonRaises e =>
      handled (store_etag self endpoint etag) (request self endpoint) endpoint e
  end.
Proof. by rewrite fetch_with_etag_run. Qed.

Lemma store_etag_lookup self endpoint a etag :
  (store_etag self endpoint (Some (String a etag))).(etags) !! endpoint
  = Some (strip quote (String a etag)).
Proof. unfold store_etag, with_etags; cbn [etags]. apply lookup_insert_eq. Qed.

(** X12.  The validator of a 200 response is stored before its body is
    decoded, so a body that fails to decode still replaces the validator.
    The failed version is then never looked at again if the server goes on
    to answer 304: after a decode error and a 304, no event was emitted and
    the stored signatures are as before, while the request sent the new
    validator. *)
Theorem validator_stored_before_decode
    (endpoint : string) (a : ascii) (etag msg : string) (e : exn)
    (next_etag : option string) (next_body : body_result) (self : Monitor) :
  let validator := strip quote (String a etag) in
  (let r := _fetch_with_etag endpoint (Response 200 (Some (String a etag)) (JsonRaises e)) self in
   (final r).(etags) !! endpoint = Some validator ∧ result r = swallowed e) ∧
  (let r1 := check_summary
               (Response 200 (Some (String a etag)) (JsonRaises (JSONDecodeError msg))) self in
   let r2 := check_summary (Response 304 next_etag next_body) (final r1) in
   result r1 = Return tt ∧ result r2 = Return tt ∧
   events (trace r1 ++ trace r2) = [] ∧
   requests (trace r2)
   = [HttpGet (BASE_URL +:+ SUMMARY_ENDPOINT) [("If-None-Match", validator)]] ∧
   (final r2).(last_known_state) = self.(last_known_state)).
Proof.
  intros validator. split.
  - cbv zeta. rewrite fetch_with_etag_fresh.
    rewrite handled_result, handled_final. split; [|done].
    apply store_etag_lookup.
  - assert (check_summary
              (Response 200 (Some (String a etag)) (JsonRaises (JSONDecodeError msg))) self
            = Run (store_etag self SUMMARY_ENDPOINT (Some (String a etag)))
                [request self SUMMARY_ENDPOINT;
                 LogDecodeError SUMMARY_ENDPOINT (JSONDecodeError msg)]
                (Return tt)) as Hfailed
      by (by rewrite check_summary_run, fetch_with_etag_fresh).
    cbv zeta. rewrite check_summary_not_modified, Hfailed.
    cbn [result final trace].
    pose proof (store_etag_frame self SUMMARY_ENDPOINT (Some (String a etag)))
      as (_ & Hstate & _).
    split_and!; try done.
    unfold request, conditional_headers. by rewrite store_etag_lookup.
Qed.

Lemma string_app_cons a (s t : string) : String a s +:+ t = String a (s +:+ t).
Proof. reflexivity. Qed.

Lemma string_app_nil_l (t : string) : EmptyString +:+ t = t.
Proof. reflexivity. Qed.

Lemma string_app_assoc (s t u : string) : (s +:+ t) +:+ u = s +:+ (t +:+ u).
Proof.
  induction s as [|a s IH]; [done|]. by rewrite !string_app_cons, IH.
Qed.

Lemma string_app_nil_r (s : string) : s +:+ EmptyString = s.
Proof. induction s as [|a s IH]; [done|]. by rewrite string_app_cons, IH. Qed.

Lemma rev_app_app s t u :
  String.rev_app (s +:+ t) u = String.rev_app t (String.rev_app s u).
Proof.
  revert u; induction s as [|a s IH]; intros u; [done|].
  rewrite string_app_cons. simpl. apply IH.
Qed.

Lemma rev_app_rev s u : String.rev_app s u = String.rev s +:+ u.
Proof.
  unfold String.rev. revert u; induction s as [|a s IH]; intros u; simpl; [done|].
  by rewrite IH, (IH (String a EmptyString)), string_app_assoc.
Qed.

Lemma rev_app_rev_app s u v :
  String.rev_app (String.rev_app s u) v = String.rev_app u (s +:+ v).
Proof.
  revert u v; induction s as [|a s IH]; intros u v; simpl; [done|].
  by rewrite IH.
Qed.

Lemma string_rev_involutive s : String.rev (String.rev s) = s.
Proof.
  unfold String.rev. rewrite rev_app_rev_app. simpl. apply string_app_nil_r.
Qed.

Lemma string_rev_snoc s c :
  String.rev (s +:+ String c EmptyString) = String c (String.rev s).
Proof. unfold String.rev. by rewrite rev_app_app. Qed.

Lemma string_rev_cons c s :
  String.rev (String c s) = String.rev s +:+ String c EmptyString.
Proof. unfold String.rev; simpl. apply rev_app_rev. Qed.

Lemma lstrip_id c s : (∀ rest, s ≠ String c rest) → lstrip c s = s.
Proof.
  intros Hs. destruct s as [|a s]; simpl; [done|].
  case_decide; [|done]. subst. by destruct (Hs s).
Qed.

(** The quotes around a token are stripped. *)
Lemma strip_quoted c token :
  (∀ rest, token ≠ String c rest) →
  (∀ front, token ≠ front +:+ String c EmptyString) →
  strip c (String c (token +:+ String c EmptyString)) = token.
Proof.
  intros Hfront Hback. unfold strip. simpl lstrip at 2. case_decide; [|done].
  destruct token as [|a token].
  { rewrite string_app_nil_l. simpl. by case_decide. }
  rewrite (lstrip_id c (String a token +:+ _)).
  - rewrite string_rev_snoc. simpl lstrip. case_decide; [|done].
    rewrite lstrip_id; [apply string_rev_involutive|].
    intros rest Hrest. apply (Hback (String.rev rest)).
    by rewrite <- string_rev_cons, <- Hrest, string_rev_involutive.
  - rewrite string_app_cons. intros rest [= -> _]. by destruct (Hfront token).
Qed.

(** X13.  A validator arrives quoted and is sent back bare: after a 200
    whose [ETag] header is a token between two double quotes (the token
    itself neither beginning nor ending with one), the token is what is
    stored for the endpoint, and the next request to it carries
    [If-None-Match] with the token, without the quotes. *)
Theorem quoted_validator_sent_bare
    (endpoint token : string) (body : body_result) (next_net : http_result)
    (self : Monitor) :
  (∀ rest, token ≠ String quote rest) →
  (∀ front, token ≠ front +:+ String quote EmptyString) →
  let quoted := String quote (token +:+ String quote EmptyString) in
  let r := _fetch_with_etag endpoint (Response 200 (Some quoted) body) self in
  (final r).(etags) !! endpoint = Some token ∧
  requests (trace (_fetch_with_etag endpoint next_net (final r)))
  = [HttpGet (BASE_URL +:+ endpoint) [("If-None-Match", token)]].
Proof.
  intros Hfront Hback quoted r.
  assert ((final r).(etags) !! endpoint = Some token) as Hstored.
  { unfold r, quoted. rewrite fetch_with_etag_fresh.
    destruct body; rewrite ?handled_final; cbn [final];
      by rewrite store_etag_lookup, strip_quoted. }
  split; [done|]. rewrite requests_fetch_with_etag.
  unfold request, conditional_headers. by rewrite Hstored.
Qed.

Lemma quoted_validator_sent_bare_witness :
  let quoted := String quote ("v1" +:+ String quote EmptyString) in
  let r := _fetch_with_etag SUMMARY_ENDPOINT
             (Response 200 (Some quoted) (JsonBody JNull)) (__init__ 30) in
  (final r).(etags) !! SUMMARY_ENDPOINT = Some "v1" ∧
  requests (trace (_fetch_with_etag SUMMARY_ENDPOINT
                     (Response 304 None (JsonBody JNull)) (final r)))
  = [HttpGet (BASE_URL +:+ SUMMARY_ENDPOINT) [("If-None-Match", "v1")]].
Proof.
  apply (quoted_validator_sent_bare SUMMARY_ENDPOINT "v1" (JsonBody JNull)
           (Response 304 None (JsonBody JNull)) (__init__ 30)).
  - intros rest. discriminate.
  - intros [|a [|b [|c front]]]; discriminate.
Defined.

(** ** Product labels *)

Lemma prefix_app p s : String.prefix p s = true ↔ ∃ rest, s = p +:+ rest.
Proof.
  revert s; induction p as [|a p IH]; intros s.
  { split; [intros _; by exists s|by destruct s]. }
  destruct s as [|b s]; simpl; [split; [done|by intros [rest [=]]]|].
  destruct (ascii_dec a b) as [->|Hab].
  - rewrite IH. split; intros [rest Hrest]; exists rest.
    + by rewrite string_app_cons, <- Hrest.
    + rewrite string_app_cons in Hrest. by simplify_eq.
  - split; [done|]. intros [rest Hrest].
    rewrite string_app_cons in Hrest. by simplify_eq.
Qed.

(** [contains] decides whether the needle is a run of the haystack. *)
Lemma contains_spec needle haystack :
  contains needle haystack = true
  ↔ ∃ front back, haystack = front +:+ needle +:+ back.
Proof.
  induction haystack as [|a haystack IH].
  - change (contains needle EmptyString)
      with (String.prefix needle EmptyString || false).
    rewrite orb_true_iff, prefix_app. split.
    + intros [[back Hback]|?]; [|done]. by exists EmptyString, back.
    + intros ([|b front] & back & Hrun); [|done].
      left. by exists back.
  - change (contains needle (String a haystack))
      with (String.prefix needle (String a haystack) || contains needle haystack).
    rewrite orb_true_iff, prefix_app, IH. split.
    + intros [[back Hback]|(front & back & Hrun)].
      * by exists EmptyString, back.
      * exists (String a front), back. by rewrite string_app_cons, <- Hrun.
    + intros ([|b front] & back & Hrun).
      * left. by exists back.
      * right. exists front, back. rewrite string_app_cons in Hrun.
        by simplify_eq.
Qed.

Lemma filter_sublist {A} (f : A → bool) (xs : list A) :
  List.filter f xs `sublist_of` xs.
Proof.
  induction xs as [|x xs IH]; simpl; [constructor|].
  destruct (f x); by constructor.
Qed.

Lemma concat_nonempty sep x xs :
  x ≠ EmptyString → String.concat sep (x :: xs) ≠ EmptyString.
Proof.
  intros Hx. destruct x as [|a x]; [done|]. simpl.
  destruct xs; [done|]. by rewrite string_app_cons.
Qed.

(** X14.  The label of an incident lists, in the order of the fixed
    vocabulary and joined by ", ", exactly the products whose lower-cased
    name is a run of characters of the lower-cased incident name (a
    substring match, not a word match), and is "OpenAI Services" when
    there is none; it is never empty, and it depends on the incident name
    only through its lower-cased form. *)
Theorem extract_products_label (lower : string → string) (incident_name : string) :
  let label := _extract_products_from_incident lower incident_name in
  (∃ found,
     found `sublist_of` products ∧
     (∀ product, product ∈ found ↔
        product ∈ products ∧
        ∃ front back, lower incident_name = front +:+ lower product +:+ back) ∧
     label = match found with
             | [] => "OpenAI Services"
             | _ => String.concat ", " found
             end) ∧
  label ≠ EmptyString ∧
  (∀ other, lower other = lower incident_name →
            _extract_products_from_incident lower other = label).
Proof.
  intros label. split_and!.
  - exists (List.filter (λ product, contains (lower product) (lower incident_name))
              products).
    split_and!; [apply filter_sublist| |done].
    intros product. rewrite list_elem_of_In, filter_In, <- list_elem_of_In.
    by rewrite contains_spec.
  - unfold label, _extract_products_from_incident; cbv zeta.
    destruct (List.filter _ products) as [|product found] eqn:Hfound; [done|].
    apply concat_nonempty.
    assert (product ∈ products) as Hproduct.
    { apply list_elem_of_In.
      eapply proj1, filter_In. rewrite Hfound. by left. }
    assert (Forall (λ p, p ≠ EmptyString) products) as Hnonempty
      by (unfold products; repeat constructor; discriminate).
    by apply (proj1 (Forall_forall _ _) Hnonempty).
  - intros other Hother. unfold label, _extract_products_from_incident.
    by rewrite Hother.
Qed.

(** ** A new monitor *)

Lemma detect_updates_of_all_new incident us self :
  NoDup (IncidentUpdate.id <$> us) →
  (∀ u, u ∈ us → u.(IncidentUpdate.id) ∉ self.(processed_incident_updates)) →
  trace (detect_updates_of incident us self) = IncidentEvent incident <$> us.
Proof.
  revert self; induction us as [|u us IH]; intros self Hnd Hnew; [done|].
  rewrite fmap_cons in Hnd. apply NoDup_cons in Hnd as [Hu Hnd].
  rewrite detect_updates_of_cons.
  case_decide as Hfresh; [|exfalso; apply (Hnew u); [by left|done]].
  simpl. f_equal. apply IH; [done|]. intros u' Hu'. simpl.
  apply not_elem_of_union. split; [|apply Hnew; by right].
  intros Heq%elem_of_singleton. apply Hu, list_elem_of_fmap. by exists u'.
Qed.

Lemma detect_incident_updates_all_new incidents self :
  NoDup ((λ p, p.2.(IncidentUpdate.id)) <$> visits incidents) →
  (∀ p, p ∈ visits incidents →
        p.2.(IncidentUpdate.id) ∉ self.(processed_incident_updates)) →
  trace (_detect_incident_updates incidents self) = incident_event <$> visits incidents.
Proof.
  revert self; induction incidents as [|i rest IH]; intros self Hnd Hnew; [done|].
  rewrite detect_incident_updates_cons; cbv zeta; cbn [trace after].
  unfold visits in Hnd, Hnew |- *; simpl in Hnd, Hnew |- *.
  rewrite fmap_app, <- list_fmap_compose in Hnd.
  apply NoDup_app in Hnd as (Hnd1 & Hdisjoint & Hnd2).
  rewrite fmap_app, <- list_fmap_compose. f_equal.
  - apply detect_updates_of_all_new; [done|].
    intros u Hu. apply (Hnew (i, u)), elem_of_app. left.
    apply list_elem_of_fmap. by exists u.
  - apply IH; [done|]. intros p Hp.
    rewrite detect_updates_of_seen. apply not_elem_of_union. split.
    + apply Hnew, elem_of_app. by right.
    + rewrite elem_of_list_to_set. intros Hin.
      apply (Hdisjoint _ Hin). apply list_elem_of_fmap. by exists p.
Qed.

(** X15.  Nothing is remembered from before the monitor was made: in the
    first cycle of a new monitor, when both endpoints answer 200 with
    payloads that parse, with distinct component ids and distinct update
    ids, every component is announced with "Initial Status" and every
    update of every incident is announced, components first, all in feed
    order. *)
Theorem new_monitor_announces_everything
    (interval : Z) (summary_payload incidents_payload : json)
    (summary_etag incidents_etag : option string)
    (components : list ComponentStatus.t) (incidents : list Incident.t) :
  truthy summary_payload = true →
  _parse_components summary_payload = Return components →
  NoDup (ComponentStatus.id <$> components) →
  truthy incidents_payload = true →
  _parse_incidents incidents_payload = Return incidents →
  NoDup ((λ p, p.2.(IncidentUpdate.id)) <$> visits incidents) →
  events (trace (check_status_updates
                   (Response 200 summary_etag (JsonBody summary_payload))
                   (Response 200 incidents_etag (JsonBody incidents_payload))
                   (__init__ interval)))
  = ((λ c, ComponentEvent c "Initial Status") <$> components)
    ++ (incident_event <$> visits incidents).
Proof.
  intros Hst Hsp Hsnd Hit Hip Hind.
  rewrite check_status_updates_run, check_summary_fresh; cbv zeta.
  rewrite Hst, Hsp. cbn [result after trace final].
  rewrite detect_component_changes_result.
  cbn [after trace]. rewrite check_incidents_fresh; cbv zeta.
  rewrite Hit, Hip. cbn [after trace].
  rewrite detect_component_changes_initial; [|done|].
  - rewrite detect_incident_updates_all_new; [|done|].
    + rewrite !events_app, events_incident_events.
      change (events [HttpGet _ _]) with (@nil effect).
      rewrite !app_nil_l. f_equal.
      clear. induction components as [|c cs IH]; simpl; [done|]. by f_equal.
    + intros p Hp.
      pose proof (store_etag_frame
                    (final (_detect_component_changes components
                              (store_etag (__init__ interval) SUMMARY_ENDPOINT summary_etag)))
                    INCIDENTS_ENDPOINT incidents_etag) as (_ & _ & ->).
      destruct (detect_component_changes_frame components
                  (store_etag (__init__ interval) SUMMARY_ENDPOINT summary_etag))
        as (_ & _ & ->).
      destruct (store_etag_frame (__init__ interval) SUMMARY_ENDPOINT summary_etag)
        as (_ & _ & ->).
      apply not_elem_of_empty.
  - intros c Hc.
    destruct (store_etag_frame (__init__ interval) SUMMARY_ENDPOINT summary_etag)
      as (_ & -> & _).
    apply lookup_empty.
Qed.

Lemma new_monitor_announces_everything_witness :
  let api := ComponentStatus.Make "c1" "API" "operational" "t1" 1 in
  let u1 := IncidentUpdate.Make "u1" "Investigating" "t1" "t1" "investigating" "i1" in
  let incident := Incident.Make "i1" "API errors" "investigating" "t1" "t1" None "minor" [u1] in
  events (trace (check_status_updates
                   (Response 200 None (JsonBody (JObj [("components", JArr [component_json api])])))
                   (Response 200 None (JsonBody (JObj [("incidents", JArr [incident_json incident])])))
                   (__init__ 30)))
  = [ComponentEvent api "Initial Status"; IncidentEvent incident u1].
Proof.
  intros api u1 incident.
  apply (new_monitor_announces_everything 30
           (JObj [("components", JArr [component_json api])])
           (JObj [("incidents", JArr [incident_json incident])])
           None None [api] [incident]).
  - reflexivity.
  - reflexivity.
  - by apply (bool_decide_unpack _).
  - reflexivity.
  - reflexivity.
  - by apply (bool_decide_unpack _).
Defined.

(** ** The two modes of [main] *)

(** X16.  The two modes of [main] end differently on a failing first
    cycle: when the first cycle of a new monitor raises an exception, in
    test mode [main] ends with that exception, having made no other call
    than the cycle's; without [--test] it returns normally, the last call
    being the log line that reports the exception.  In both modes the
    session is closed last. *)
Theorem main_modes_on_failure
    (interval : Z) (first : http_result * http_result)
    (later : list (http_result * http_result)) (e : exn) :
  let cycle := check_status_updates first.1 first.2 (__init__ interval) in
  result cycle = Raise e →
  (let testing := {| interval := interval; test := true |} in
   result (main testing first later) = Raise e ∧
   trace (main testing first later) = trace cycle ∧
   last (main_trace testing first later) = Some CloseSession) ∧
  (let looping := {| interval := interval; test := false |} in
   result (main looping first later) = Return tt ∧
   last (trace (main looping first later)) = Some (LogStopped e) ∧
   last (main_trace looping first later) = Some CloseSession).
Proof.
  intros cycle Hraise. split; cbv zeta.
  - split_and!; [done..|]. unfold main_trace. by rewrite !app_assoc, last_snoc.
  - unfold main; cbn [test]. destruct first as [summary_net incidents_net].
    rewrite (start_monitoring_cycle_raises _ _ _ _ e Hraise); cbn [result trace].
    split_and!; [done| |].
    + by rewrite !app_assoc, last_snoc.
    + unfold main_trace. by rewrite !app_assoc, last_snoc.
Qed.

Lemma main_modes_on_failure_witness :
  let first := (Response 200 None (JsonBody (JArr [JNull])),
                Response 304 None (JsonBody JNull)) in
  result (main {| interval := 30; test := true |} first []) = Raise AttributeError ∧
  result (main {| interval := 30; test := false |} first []) = Return tt.
Proof.
  intros first.
  destruct (main_modes_on_failure 30 first [] AttributeError) as ((Ht & _) & (Hl & _)).
  - reflexivity.
  - split; [exact Ht|exact Hl].
Defined.

(** ** What each method may change *)

(** X17.  A fetch can change one thing only, the validator of its own
    endpoint, and only on a 200: it never touches the stored signatures,
    the seen-set, the interval or the validator of another endpoint, and
    on any answer that is not a 200 response (a 304, another status, an
    exception of the request) it leaves the whole monitor as it was. *)
Theorem fetch_changes_own_validator_only
    (endpoint : string) (net : http_result) (self : Monitor) :
  let self' := final (_fetch_with_etag endpoint net self) in
  self'.(poll_interval) = self.(poll_interval) ∧
  self'.(last_known_state) = self.(last_known_state) ∧
  self'.(processed_incident_updates) = self.(processed_incident_updates) ∧
  (∀ other, other ≠ endpoint → self'.(etags) !! other = self.(etags) !! other) ∧
  ((∀ etag body, net ≠ Response 200 etag body) → self' = self).
Proof.
  intros self'.
  destruct (fetch_with_etag_frame endpoint net self) as (Hp & Hs & Hu).
  split_and!; try done.
  - intros other Hother. by apply fetch_with_etag_other_validator.
  - intros Hnet. unfold self'. rewrite fetch_with_etag_run.
    destruct net as [e|status etag body]; [apply handled_final|].
    repeat case_decide; try done. subst. by destruct (Hnet etag body).
Qed.

Lemma fetch_changes_own_validator_only_witness :
  let self := with_etags (__init__ 30) {[SUMMARY_ENDPOINT := "v1"]} in
  final (_fetch_with_etag SUMMARY_ENDPOINT (Response 503 (Some "v2") (JsonBody JNull)) self)
  = self.
Proof.
  intros self.
  destruct (fetch_changes_own_validator_only SUMMARY_ENDPOINT
              (Response 503 (Some "v2") (JsonBody JNull)) self)
    as (_ & _ & _ & _ & Hsame).
  apply Hsame. intros etag body. discriminate.
Defined.


(** ** Sleeping between cycles *)

Lemma sleeps_app t1 t2 : sleeps (t1 ++ t2) = sleeps t1 ++ sleeps t2.
Proof. apply omap_app. Qed.

Lemma sleeps_in_cycle tr : Forall in_cycle tr → sleeps tr = [].
Proof.
  induction 1 as [|e tr He _ IH]; [done|]. by destruct e.
Qed.

Lemma monitoring_loop_cons summary_net incidents_net later self :
  monitoring_loop ((summary_net, incidents_net) :: later) self =
  let r := check_status_updates summary_net incidents_net self in
  match result r with
  | Return _ =>
      after (trace r ++ [Sleep (final r).(poll_interval)])
        (monitoring_loop later (final r))
  | Raise e => Run (final r) (trace r) (Raise e)
  | IllTyped => Run (final r) (trace r) IllTyped
  end.
Proof.
  simpl monitoring_loop. rewrite bind_run; cbv zeta.
  destruct (result (check_status_updates summary_net incidents_net self));
    [|done..].
  cbv [mbind M_bind get_self call]; cbn [result final trace].
  by rewrite after_nil, after_after.
Qed.

Lemma sleeps_monitoring_loop cycles self :
  ∃ n, (n ≤ length cycles)%nat ∧
       sleeps (trace (monitoring_loop cycles self)) = replicate n self.(poll_interval) ∧
       (∀ e, result (monitoring_loop cycles self) = Raise e → (n < length cycles)%nat).
Proof.
  revert self; induction cycles as [|[summary_net incidents_net] later IH];
    intros self.
  { exists 0%nat. by split_and!. }
  rewrite monitoring_loop_cons; cbv zeta.
  pose proof (sleeps_in_cycle _ (calls_M_check_status_updates summary_net
                                   incidents_net self)) as Hquiet.
  destruct (grows_M_check_status_updates summary_net incidents_net self)
    as (Hinterval & _).
  destruct (result (check_status_updates summary_net incidents_net self)) eqn:Hres;
    cbn [trace result after final];
    try (exists 0%nat; split_and!; [simpl; lia|by rewrite Hquiet|simpl; lia]).
  destruct (IH (final (check_status_updates summary_net incidents_net self)))
    as (n & Hn & Hsleeps & Hraise).
  exists (S n). rewrite !sleeps_app, Hquiet, Hsleeps, Hinterval.
  split_and!; [simpl; lia|done|].
  intros e He. apply Hraise in He. simpl; lia.
Qed.

(** X19.  The loop sleeps only between cycles and always for the interval
    the monitor was made with: over a run of [start_monitoring] the sleeps
    are all for [poll_interval], there is at most one per scheduled cycle,
    and a cycle that ended by an exception is not followed by one. *)
Theorem start_monitoring_sleeps
    (cycles : list (http_result * http_result)) (self : Monitor) :
  let r := start_monitoring cycles self in
  ∃ n, (n ≤ length cycles)%nat ∧
       sleeps (trace r) = replicate n self.(poll_interval) ∧
       ((∃ e, LogStopped e ∈ trace r) → (n < length cycles)%nat).
Proof.
  cbv zeta. rewrite start_monitoring_run; cbv zeta.
  destruct (sleeps_monitoring_loop cycles self) as (n & Hn & Hsleeps & Hraise).
  pose proof (calls_M_monitoring_loop cycles self) as Hloop.
  assert (∀ e, LogStopped e ∉ trace (monitoring_loop cycles self)) as Hnone.
  { intros e Hin. by apply (proj1 (Forall_forall _ _) Hloop) in Hin. }
  exists n.
  destruct (result (monitoring_loop cycles self)) as [[]|e0|] eqn:Hres;
    cbn [after trace].
  - split_and!; [done|done|]. intros [e Hin].
    do 2 (apply elem_of_cons in Hin as [?|Hin]; [done|]). by apply Hnone in Hin.
  - split_and!; [done| |by eauto].
    rewrite !sleeps_app, Hsleeps. simpl. by rewrite app_nil_r.
  - split_and!; [done|done|]. intros [e Hin].
    do 2 (apply elem_of_cons in Hin as [?|Hin]; [done|]). by apply Hnone in Hin.
Qed.
